(** * gosrt: address resolution and connection racing (srt/dial.go)

    A shallow embedding of the dial path of the [srt] package:
    [partialDeadline], [parseNetwork], [resolveAddrList], [dialSingle],
    [dialSerial] and the orchestration loop of [dialParallel], together
    with the parts of [SRTAddr] they use ([isWildcard], [matchAddrFamily],
    [String]).  Definitions come first, the verified properties follow. *)

From Stdlib Require Import String Ascii.
From Stdlib Require Import ZArith List Bool Lia.
From Stdlib Require Import Strings.Byte.
Import ListNotations.

Local Open Scope Z_scope.

(** ** Go run-time outcomes *)

(** A Go call either returns or dies in a run-time panic (integer division
    by zero, nil pointer dereference). *)
Inductive outcome (A : Type) : Type :=
| Ret (a : A)
| Panic.
Arguments Ret {A} a.
Arguments Panic {A}.

(** ** The [time] package, as far as dial.go uses it *)

Module time.

(** [time.Duration] is an [int64] count of nanoseconds. *)
Definition Duration := Z.

Definition minDuration : Duration := - 2 ^ 63.
Definition maxDuration : Duration := 2 ^ 63 - 1.

Definition Millisecond : Duration := 1000000.
Definition Second : Duration := 1000000000.

(** Two's complement wrap-around of an [int64] result. *)
Definition wrap64 (z : Z) : Z := (z + 2 ^ 63) mod 2 ^ 64 - 2 ^ 63.

Definition inDuration (d : Z) : Prop := minDuration <= d <= maxDuration.

(** [a / b] on [int64]: truncated division; a zero divisor panics. *)
Definition div (a b : Duration) : outcome Duration :=
  if b =? 0 then Panic else Ret (wrap64 (Z.quot a b)).

(** A [time.Time] is an instant; the embedding keeps the number of
    nanoseconds that separate it from the zero Time (January 1, year 1,
    00:00:00 UTC), on one unbounded time line.  Locations and the
    monotonic clock reading do not enter dial.go's arithmetic. *)
Record Time : Type := Instant { sinceZero : Z }.

(** [time.Time{}] *)
Definition zero : Time := Instant 0.

Definition IsZero (t : Time) : bool := sinceZero t =? 0.

Definition Before (t u : Time) : bool := sinceZero t <? sinceZero u.

(** [t.Sub(u)]: the duration [t-u], pinned to the largest or smallest
    [Duration] when the difference does not fit. *)
Definition Sub (t u : Time) : Duration :=
  let d := sinceZero t - sinceZero u in
  if d <? minDuration then minDuration
  else if maxDuration <? d then maxDuration
  else d.

Definition Add (t : Time) (d : Duration) : Time := Instant (sinceZero t + d).

End time.

(** ** net.IP *)

Module ip.

(** A [net.IP] is a byte slice; [None] is the nil slice. *)
Definition IP := option (list byte).

Definition IPv4len : nat := 4.
Definition IPv6len : nat := 16.

Definition len (p : IP) : nat :=
  match p with
  | None => 0%nat
  | Some b => length b
  end.

Definition v4InV6Prefix : list byte :=
  [x00; x00; x00; x00; x00; x00; x00; x00; x00; x00; xff; xff].

(** [IPv4(a, b, c, d)]: the 16-byte form of an IPv4 address. *)
Definition IPv4 (a b c d : byte) : list byte := v4InV6Prefix ++ [a; b; c; d].

Definition IPv4zero : list byte := IPv4 x00 x00 x00 x00.
Definition IPv6unspecified : list byte := repeat x00 IPv6len.

Definition isZeros (p : list byte) : bool := forallb (Byte.eqb x00) p.

Fixpoint bytesEqual (p q : list byte) : bool :=
  match p, q with
  | [], [] => true
  | a :: p', b :: q' => Byte.eqb a b && bytesEqual p' q'
  | _, _ => false
  end.

(** [ip.To4()]: the 4-byte form, or nil when [ip] is not an IPv4 address. *)
Definition To4 (p : IP) : IP :=
  match p with
  | None => None
  | Some b =>
      if Nat.eqb (length b) IPv4len then Some b
      else if Nat.eqb (length b) IPv6len
              && isZeros (firstn 10 b)
              && Byte.eqb (nth 10 b x00) xff
              && Byte.eqb (nth 11 b x00) xff
           then Some (skipn 12 b)
           else None
  end.

(** [ip.To16()]: the 16-byte form, or nil when the length is wrong. *)
Definition To16 (p : IP) : IP :=
  match p with
  | None => None
  | Some b =>
      if Nat.eqb (length b) IPv4len
      then Some (IPv4 (nth 0 b x00) (nth 1 b x00) (nth 2 b x00) (nth 3 b x00))
      else if Nat.eqb (length b) IPv6len then Some b
      else None
  end.

(** [ip.Equal(x)] for a slice [x] of either length. *)
Definition Equal (p : IP) (x : list byte) : bool :=
  let b := match p with None => [] | Some b => b end in
  if Nat.eqb (length b) (length x) then bytesEqual b x
  else if Nat.eqb (length b) IPv4len && Nat.eqb (length x) IPv6len
       then bytesEqual (firstn 12 x) v4InV6Prefix && bytesEqual b (skipn 12 x)
  else if Nat.eqb (length b) IPv6len && Nat.eqb (length x) IPv4len
       then bytesEqual (firstn 12 b) v4InV6Prefix && bytesEqual (skipn 12 b) x
  else false.

Definition IsUnspecified (p : IP) : bool :=
  Equal p IPv4zero || Equal p IPv6unspecified.

Definition isNil (p : IP) : bool :=
  match p with
  | None => true
  | Some _ => false
  end.

End ip.

(** ** Addresses *)

(** [SRTAddr] (the address of an SRT end point). *)
Record SRTAddr : Type := mkSRTAddr {
  IP : ip.IP;
  Port : Z;
  Zone : string
}.

(** The dynamic values of the [net.Addr] interface.  [SRT p] holds a
    [*SRTAddr], where [p = None] is the nil pointer; [Foreign] stands for a
    value of any other implementation, given by what its [Network] and
    [String] methods return.  The nil interface is [None : option Addr]. *)
Inductive Addr : Type :=
| SRT (p : option SRTAddr)
| Foreign (network str : string).

Definition addrList := list Addr.

(** [func (a *SRTAddr) Network() string] *)
Definition Network (a : Addr) : string :=
  match a with
  | SRT _ => "srt"
  | Foreign n _ => n
  end.

(** [func (a *SRTAddr) isWildcard() bool] *)
Definition isWildcard (a : option SRTAddr) : bool :=
  match a with
  | None => true
  | Some a' =>
      if ip.isNil (IP a') then true else ip.IsUnspecified (IP a')
  end.

(** [func (a *SRTAddr) matchAddrFamily(x net.IP) bool], on a non-nil
    receiver. *)
Definition matchAddrFamily (a : SRTAddr) (x : ip.IP) : bool :=
  negb (ip.isNil (ip.To4 (IP a))) && negb (ip.isNil (ip.To4 x))
  || negb (ip.isNil (ip.To16 (IP a))) && ip.isNil (ip.To4 (IP a))
     && negb (ip.isNil (ip.To16 x)) && ip.isNil (ip.To4 x).

(** ** Errors *)

(** [ctx.Err()] of a context whose [Done] channel is closed. *)
Inductive ctxError : Type := Canceled | DeadlineExceeded.

(** The error values the dial path produces or passes on.  [Errno] stands
    for whatever the socket provider reports. *)
Inductive error : Type :=
| UnknownNetworkError (network : string)
| errMissingAddress
| AddrError (Err : string) (addr : string)
| ErrTimeout
| errCanceled
| Errno (code : Z)
| OpError (Op Net : string) (Source Dest : option Addr) (Err : error).

(** ** The deadline allocator *)

Definition saneMinimum : time.Duration := 2 * time.Second.

(** [func partialDeadline(now, deadline time.Time, addrsRemaining int)
    (time.Time, error)] *)
Definition partialDeadline (now deadline : time.Time) (addrsRemaining : Z)
  : outcome (time.Time * option error) :=
  if time.IsZero deadline then Ret (deadline, None)
  else
    let timeRemaining := time.Sub deadline now in
    if timeRemaining <=? 0 then Ret (time.zero, Some ErrTimeout)
    else
      match time.div timeRemaining addrsRemaining with
      | Panic => Panic
      | Ret timeout =>
          let timeout :=
            if timeout <? saneMinimum then
              if timeRemaining <? saneMinimum then timeRemaining
              else saneMinimum
            else timeout in
          Ret (time.Add now timeout, None)
      end.

(** ** Printing addresses *)

(** Modelled from the spec: [errNoSuitableAddress], [errMissingAddress] and
    [mapErr] are declared in another file of the package; the error
    taxonomy names them [NoSuitableAddress], [MissingAddress], [Cancelled]
    and [Timeout].  [errMissingAddress] is the constructor of [error]
    above, the text of [errNoSuitableAddress] is the one the package
    inherits from Go's net package. *)
Definition errNoSuitableAddress_Error : string := "no suitable address found".

Definition mismatchedText : string := "mismatched local address type".

(** Modelled from the spec: [mapErr] turns the error of a finished context
    into the package's own [Cancelled] and [Timeout] errors. *)
Definition mapErr (e : ctxError) : error :=
  match e with
  | Canceled => errCanceled
  | DeadlineExceeded => ErrTimeout
  end.

Fixpoint hasColon (s : string) : bool :=
  match s with
  | EmptyString => false
  | String c s' => Ascii.eqb c ":"%char || hasColon s'
  end.

(** [net.JoinHostPort] *)
Definition JoinHostPort (host port : string) : string :=
  if hasColon host then ("[" ++ host ++ "]:" ++ port)%string
  else (host ++ ":" ++ port)%string.

Section Printing.

(** [net.IP.String] belongs to Go's net package and [itoa] to another file
    of this package; printing is parametric in them. *)
Variable IP_String : ip.IP -> string.
Variable itoa : Z -> string.

Definition ipEmptyString (p : ip.IP) : string :=
  if Nat.eqb (ip.len p) 0 then ""%string else IP_String p.

(** [func (a *SRTAddr) String() string] *)
Definition SRTAddr_String (a : option SRTAddr) : string :=
  match a with
  | None => "<nil>"%string
  | Some a' =>
      let ip := ipEmptyString (IP a') in
      if negb (String.eqb (Zone a') "")
      then JoinHostPort (ip ++ "%" ++ Zone a') (itoa (Port a'))
      else JoinHostPort ip (itoa (Port a'))
  end.

(** The [String] method of a [net.Addr]. *)
Definition Addr_String (a : Addr) : string :=
  match a with
  | SRT p => SRTAddr_String p
  | Foreign _ s => s
  end.

End Printing.

(** ** The resolver *)

(** Modelled from the spec: [internetAddrList], a method of the resolver,
    is declared in another file of the package.  It is the collaborator
    that "performs name lookup and returns candidate endpoints"; a resolver
    is given by what that method returns for a network and an address
    string. *)
Record Resolver : Type := mkResolver {
  internetAddrList : string -> string -> addrList * option error
}.

(** Modelled from the spec: an endpoint list is "never empty on success";
    this is the contract of [internetAddrList]. *)
Definition lookupNonEmpty (r : Resolver) : Prop :=
  forall network addr l,
    internetAddrList r network addr = (l, None) -> l <> [].

Definition knownNetwork (network : string) : bool :=
  String.eqb network "srt" || String.eqb network "srt4"
  || String.eqb network "srt6".

(** [func parseNetwork(ctx, network string) (afnet string, proto int, err error)] *)
Definition parseNetwork (network : string) : string * Z * option error :=
  if knownNetwork network then (network, 0, None)
  else (""%string, 0, Some (UnknownNetworkError network)).

(** The type switch on the hint: [srt] is the hint when it is a
    [*SRTAddr] and the nil pointer otherwise; [wildcard] is
    [srt.isWildcard()] in the first case and stays false otherwise. *)
Definition hintSRT (h : Addr) : option SRTAddr :=
  match h with SRT p => p | Foreign _ _ => None end.

Definition hintWildcard (h : Addr) : bool :=
  match h with SRT p => isWildcard p | Foreign _ _ => false end.

(** A hint whose dynamic type and network name agree: an SRT address, or
    an address of another type that does not call itself "srt". *)
Definition hintTyped (h : Addr) : Prop :=
  match h with
  | SRT _ => True
  | Foreign n _ => n <> "srt"%string
  end.

Section Resolve.

Variable IP_String : ip.IP -> string.
Variable itoa : Z -> string.

(** The body of the [for _, addr := range addrs] loop of
    [resolveAddrList], with [naddrs] the candidates kept so far. *)
Fixpoint filterLoop (hint : Addr) (srt : option SRTAddr) (wildcard : bool)
         (addrs naddrs : addrList) : outcome (addrList * option error) :=
  match addrs with
  | [] =>
      if Nat.eqb (length naddrs) 0
      then Ret ([], Some (AddrError errNoSuitableAddress_Error
                                    (Addr_String IP_String itoa hint)))
      else Ret (naddrs, None)
  | addr :: rest =>
      if negb (String.eqb (Network addr) (Network hint))
      then Ret ([], Some (AddrError mismatchedText
                                    (Addr_String IP_String itoa hint)))
      else
        match addr with
        | SRT a =>
            if negb wildcard && negb (isWildcard a) then
              (* [addr.matchAddrFamily(srt.IP)] dereferences both *)
              match srt, a with
              | Some s, Some a' =>
                  if negb (matchAddrFamily a' (IP s))
                  then filterLoop hint srt wildcard rest naddrs
                  else filterLoop hint srt wildcard rest (naddrs ++ [addr])
              | _, _ => Panic
              end
            else filterLoop hint srt wildcard rest (naddrs ++ [addr])
        | Foreign _ _ => filterLoop hint srt wildcard rest naddrs
        end
  end.

(** What the loop returns once the candidates are used up. *)
Definition closing (hint : Addr) (naddrs : addrList)
  : outcome (addrList * option error) :=
  match naddrs with
  | [] => Ret ([], Some (AddrError errNoSuitableAddress_Error
                                   (Addr_String IP_String itoa hint)))
  | _ :: _ => Ret (naddrs, None)
  end.

(** [func (r *Resolver) resolveAddrList(ctx, op, network, addr string,
    hint net.Addr) (addrList, error)] *)
Definition resolveAddrList (r : Resolver) (op network addr : string)
           (hint : option Addr) : outcome (addrList * option error) :=
  match parseNetwork network with
  | (_, _, Some err) => Ret ([], Some err)
  | (afnet, _, None) =>
      if String.eqb op "dial" && String.eqb addr ""
      then Ret ([], Some errMissingAddress)
      else
        let (addrs, err) := internetAddrList r afnet addr in
        match err, String.eqb op "dial", hint with
        | None, true, Some h =>
            filterLoop h (hintSRT h) (hintWildcard h) addrs []
        | _, _, _ => Ret (addrs, err)
        end
  end.

End Resolve.

(** ** Dialing *)

(** [type Dialer struct]; the [Resolver] field plays no part after
    resolution and is left out. *)
Record Dialer : Type := mkDialer {
  Timeout : time.Duration;
  Deadline : time.Time;
  LocalAddr : option Addr;
  DualStack : bool;
  FallbackDelay : time.Duration
}.

(** [type dialParam struct] *)
Record dialParam : Type := mkDialParam {
  dialer : Dialer;
  network : string;
  address : string
}.

(** [func (d *Dialer) fallbackDelay() time.Duration] *)
Definition fallbackDelay (d : Dialer) : time.Duration :=
  if 0 <? FallbackDelay d then FallbackDelay d else 300 * time.Millisecond.

(** A [*SRTConn]: [None] is the nil pointer, [Some h] a connection over the
    socket handle [h]. *)
Definition SRTConnPtr := option Z.

(** The values of the [net.Conn] interface that the dial path builds; the
    nil interface is [None : option Conn]. *)
Inductive Conn : Type := ConnSRT (p : SRTConnPtr).

(** What a context offers to [dialSerial]: its deadline, if any. *)
Record Context : Type := mkContext { ctxDeadline : option time.Time }.

(** [deadline, _ := ctx.Deadline()] *)
Definition Deadline_of (ctx : Context) : time.Time :=
  match ctxDeadline ctx with
  | Some d => d
  | None => time.zero
  end.

(** One call of the socket provider's [dialSRT], by its arguments: the
    deadline of the context it runs under, the network, the local and the
    remote address. *)
Record call : Type := mkCall {
  callDeadline : option time.Time;
  callNet : string;
  callLocal : option SRTAddr;
  callRemote : option SRTAddr
}.

(** What the surroundings present to one round of the loop of
    [dialSerial]: whether [ctx.Done()] is closed (and then [ctx.Err()]), the
    reading of [time.Now()], and what [dialSRT] returns if it is called. *)
Record round : Type := mkRound {
  ctxDone : option ctxError;
  timeNow : time.Time;
  dialSRT : SRTConnPtr * option error
}.

Definition dialResultOf : Type := option Conn * option error.

(** [func dialSingle(ctx, dp *dialParam, ra net.Addr) (c net.Conn, err error)],
    threading the log of provider calls.  The nettrace callbacks do not
    touch the result and are left out. *)
Definition dialSingle (dialCtx : option time.Time) (dp : dialParam) (ra : Addr)
           (provider : SRTConnPtr * option error) (log : list call)
  : dialResultOf * list call :=
  let la := LocalAddr (dialer dp) in
  match ra with
  | SRT ra' =>
      let la' := match la with Some (SRT p) => p | _ => None end in
      let log' := log ++ [mkCall dialCtx (network dp) la' ra'] in
      match provider with
      | (_, Some err) =>
          (* past the switch, [la] and [ra] are the interface values again *)
          ((None, Some (OpError "dial" (network dp) la (Some ra) err)), log')
      | (c, None) => ((Some (ConnSRT c), None), log')
      end
  | Foreign _ _ =>
      ((None, Some (OpError "dial" (network dp) la (Some ra)
                            (AddrError "unexpected address type" (address dp)))),
       log)
  end.

(** The tail of [dialSerial], after the loop. *)
Definition afterLoop (dp : dialParam) (firstErr : option error) : dialResultOf :=
  match firstErr with
  | None => (None, Some (OpError "dial" (network dp) None None errMissingAddress))
  | Some _ => (None, firstErr)
  end.

(** [if firstErr == nil { firstErr = err }] *)
Definition keepFirst (firstErr : option error) (err : error) : option error :=
  match firstErr with
  | None => Some err
  | Some _ => firstErr
  end.

(** The [for i, ra := range ras] loop of [dialSerial]: [n] is [len(ras)],
    [i] the index of the head of [ras], [env i] what round [i] observes. *)
Fixpoint dialSerialLoop (ctx : Context) (dp : dialParam) (n : Z)
         (env : nat -> round) (i : nat) (ras : addrList)
         (firstErr : option error) (log : list call)
  : outcome (dialResultOf * list call) :=
  match ras with
  | [] => Ret (afterLoop dp firstErr, log)
  | ra :: rest =>
      match ctxDone (env i) with
      | Some ce =>
          Ret ((None, Some (OpError "dial" (network dp) (LocalAddr (dialer dp))
                                    (Some ra) (mapErr ce))), log)
      | None =>
          let deadline := Deadline_of ctx in
          match partialDeadline (timeNow (env i)) deadline (n - Z.of_nat i) with
          | Panic => Panic
          | Ret (_, Some err) =>
              (* ran out of time: break *)
              Ret (afterLoop dp
                     (keepFirst firstErr
                        (OpError "dial" (network dp) (LocalAddr (dialer dp))
                                 (Some ra) err)), log)
          | Ret (pd, None) =>
              let dialCtx :=
                if time.Before pd deadline then Some pd else ctxDeadline ctx in
              match dialSingle dialCtx dp ra (dialSRT (env i)) log with
              | ((c, None), log') => Ret ((c, None), log')
              | ((_, Some err), log') =>
                  dialSerialLoop ctx dp n env (S i) rest
                                 (keepFirst firstErr err) log'
              end
          end
      end
  end.

(** [func dialSerial(ctx, dp *dialParam, ras addrList) (net.Conn, error)],
    with the log of the provider calls it made. *)
Definition dialSerial (ctx : Context) (dp : dialParam) (ras : addrList)
           (env : nat -> round) : outcome (dialResultOf * list call) :=
  dialSerialLoop ctx dp (Z.of_nat (length ras)) env 0 ras None [].

(** What one round of the loop does for its candidate once the context is
    found alive: the allocator reports that no time is left, or the single
    dial fails, or it connects.  The error is the one the round produces
    for the candidate. *)
Inductive attempt : Type :=
| Exhausted (e : error)
| Failed (e : error)
| Connected (c : option Conn).

(** The context [dialSingle] runs under in a round: the partial deadline
    when it is earlier than the deadline of [ctx]. *)
Definition dialCtxOf (ctx : Context) (pd : time.Time) : option time.Time :=
  if time.Before pd (Deadline_of ctx) then Some pd else ctxDeadline ctx.

(** Round [i] of [dialSerial] over [n] candidates, on candidate [ra], read
    off the loop body. *)
Definition attemptOf (ctx : Context) (dp : dialParam) (n : Z)
           (env : nat -> round) (i : nat) (ra : Addr) : outcome attempt :=
  match partialDeadline (timeNow (env i)) (Deadline_of ctx) (n - Z.of_nat i) with
  | Panic => Panic
  | Ret (_, Some err) =>
      Ret (Exhausted (OpError "dial" (network dp) (LocalAddr (dialer dp))
                              (Some ra) err))
  | Ret (pd, None) =>
      match fst (dialSingle (dialCtxOf ctx pd) dp ra (dialSRT (env i)) []) with
      | (c, None) => Ret (Connected c)
      | (_, Some err) => Ret (Failed err)
      end
  end.

(** The provider calls of a round that dials. *)
Definition callsOf (ctx : Context) (dp : dialParam) (n : Z)
           (env : nat -> round) (i : nat) (ra : Addr) : list call :=
  match partialDeadline (timeNow (env i)) (Deadline_of ctx) (n - Z.of_nat i) with
  | Ret (pd, None) =>
      snd (dialSingle (dialCtxOf ctx pd) dp ra (dialSRT (env i)) [])
  | _ => []
  end.

(** The error [dialSerial] returns when it finds the context done before
    candidate [ra]. *)
Definition cancelled (dp : dialParam) (ra : Addr) (ce : ctxError) : error :=
  OpError "dial" (network dp) (LocalAddr (dialer dp)) (Some ra) (mapErr ce).

(** The remote address of a provider call, as a [net.Addr]. *)
Definition calledAddr (c : call) : Addr := SRT (callRemote c).

(** ** The parallel race *)

(** [type dialResult struct], local to [dialParallel]: the embedded
    [net.Conn] and [error], and the two flags. *)
Record dialResult : Type := mkDialResult {
  rConn : option Conn;
  rError : option error;
  primary : bool;
  done : bool
}.

(** [var primary, fallback dialResult] *)
Definition zeroResult : dialResult := mkDialResult None None false false.

(** A [*time.Timer]: [Armed w] runs and is due at [w]; [Expired] has fired
    and its value waits in the channel [C]; [Idle] was stopped, or has fired
    and its value was received. *)
Inductive timer : Type :=
| Armed (when : time.Time)
| Expired
| Idle.

(** [t.Stop()]: reports whether the call stopped a running timer. *)
Definition timerStop (t : timer) : bool * timer :=
  match t with
  | Armed _ => (true, Idle)
  | Expired => (false, Expired)
  | Idle => (false, Idle)
  end.

(** Where a goroutine running [startRacer] stands: inside [dialSerial];
    blocked in the [select] with the outcome of [dialSerial] in hand; past
    the [select] through the send on [results]; or past it through
    [<-returned], having closed a non-nil connection. *)
Inductive stage : Type :=
| Dialing
| Offering (c : option Conn) (err : option error)
| Delivered (c : option Conn) (err : option error)
| Abandoned (c : option Conn) (err : option error).

(** One [go startRacer(ctx, primary)]: its argument, the instant of the
    [go] statement, and its stage. *)
Record racer : Type := mkRacer {
  isPrimary : bool;
  startedAt : time.Time;
  standing : stage
}.

(** Where the goroutine of [dialParallel] stands. *)
Inductive mainPc : Type :=
| Entry
| Arming
| Selecting
| Returned (c : option Conn) (err : option error).

(** The state of one [dialParallel] call and the goroutines it started.
    [closed] lists the connections on which [Close] was called. *)
Record race : Type := mkRace {
  clock : time.Time;
  pc : mainPc;
  primaryRes : dialResult;
  fallbackRes : dialResult;
  fallbackTimer : timer;
  returned : bool;
  racers : list racer;
  closed : list Conn
}.

Definition initial (t0 : time.Time) : race :=
  mkRace t0 Entry zeroResult zeroResult Idle false [] [].

Definition setClock (t : time.Time) (s : race) : race :=
  mkRace t (pc s) (primaryRes s) (fallbackRes s) (fallbackTimer s)
         (returned s) (racers s) (closed s).

Definition setPc (p : mainPc) (s : race) : race :=
  mkRace (clock s) p (primaryRes s) (fallbackRes s) (fallbackTimer s)
         (returned s) (racers s) (closed s).

Definition setTimer (t : timer) (s : race) : race :=
  mkRace (clock s) (pc s) (primaryRes s) (fallbackRes s) t
         (returned s) (racers s) (closed s).

Definition setRacers (l : list racer) (s : race) : race :=
  mkRace (clock s) (pc s) (primaryRes s) (fallbackRes s) (fallbackTimer s)
         (returned s) l (closed s).

(** [primary = res] or [fallback = res] *)
Definition recordResult (res : dialResult) (s : race) : race :=
  if primary res
  then mkRace (clock s) (pc s) res (fallbackRes s) (fallbackTimer s)
              (returned s) (racers s) (closed s)
  else mkRace (clock s) (pc s) (primaryRes s) res (fallbackTimer s)
              (returned s) (racers s) (closed s).

(** [return c, err] from the loop, with the deferred calls that matter to
    the other goroutines: [fallbackTimer.Stop()] and [close(returned)]. *)
Definition leave (c : option Conn) (err : option error) (s : race) : race :=
  mkRace (clock s) (Returned c err) (primaryRes s) (fallbackRes s)
         (snd (timerStop (fallbackTimer s))) true (racers s) (closed s).

(** The [case res := <-results] branch of the loop of [dialParallel]. *)
Definition onResult (res : dialResult) (s : race) : race :=
  match rError res with
  | None => leave (rConn res) None s
  | Some _ =>
      let s1 := recordResult res s in
      if done (primaryRes s1) && done (fallbackRes s1)
      then leave None (rError (primaryRes s1)) s1
      else if primary res then
             match timerStop (fallbackTimer s1) with
             | (true, _) => setTimer (Armed (time.Add (clock s1) 0)) s1
             | (false, _) => s1
             end
           else s1
  end.

Fixpoint setNth {A : Type} (k : nat) (x : A) (l : list A) : list A :=
  match l, k with
  | [], _ => []
  | _ :: l', O => x :: l'
  | y :: l', S k' => y :: setNth k' x l'
  end.

Definition setStage (k : nat) (st : stage) (s : race) : race :=
  match nth_error (racers s) k with
  | Some r => setRacers (setNth k (mkRacer (isPrimary r) (startedAt r) st) (racers s)) s
  | None => s
  end.

(** [go startRacer(ctx, primary)] *)
Definition spawn (p : bool) (s : race) : race :=
  setRacers (racers s ++ [mkRacer p (clock s) Dialing]) s.

(** [if c != nil { c.Close() }] *)
Definition closeConn (c : option Conn) (s : race) : race :=
  match c with
  | Some c' =>
      mkRace (clock s) (pc s) (primaryRes s) (fallbackRes s) (fallbackTimer s)
             (returned s) (racers s) (closed s ++ [c'])
  | None => s
  end.

(** What can happen next in a race: time passes; the goroutine of
    [dialParallel] executes its next statement or takes a ready case of its
    [select]; the run time fires the timer; a racer's [dialSerial] returns,
    having observed [env]; a racer takes a ready case of its [select]. *)
Inductive event : Type :=
| Tick (d : time.Duration)
| RunSerial (env : nat -> round)
| GoPrimary
| NewTimer
| Fire
| RecvTimer
| SerialReturns (k : nat) (env : nat -> round)
| RecvResult (k : nat)
| SeeReturned (k : nat).

Section Race.

Variable ctx : Context.
Variable dp : dialParam.
Variables primaries fallbacks : addrList.

(** The effect of an event, [None] when it cannot happen in [s]. *)
Definition step (ev : event) (s : race) : option race :=
  match ev with
  | Tick d =>
      if 0 <=? d then Some (setClock (time.Add (clock s) d) s) else None
  | RunSerial env =>
      (* [if len(fallbacks) == 0 { return dialSerial(ctx, dp, primaries) }] *)
      match pc s, fallbacks, dialSerial ctx dp primaries env with
      | Entry, [], Ret ((c, err), _) => Some (setPc (Returned c err) s)
      | _, _, _ => None
      end
  | GoPrimary =>
      match pc s, fallbacks with
      | Entry, _ :: _ => Some (setPc Arming (spawn true s))
      | _, _ => None
      end
  | NewTimer =>
      match pc s with
      | Arming =>
          Some (setPc Selecting
                  (setTimer (Armed (time.Add (clock s)
                                             (fallbackDelay (dialer dp)))) s))
      | _ => None
      end
  | Fire =>
      match fallbackTimer s with
      | Armed w =>
          if time.Before (clock s) w then None else Some (setTimer Expired s)
      | _ => None
      end
  | RecvTimer =>
      match pc s, fallbackTimer s with
      | Selecting, Expired => Some (spawn false (setTimer Idle s))
      | _, _ => None
      end
  | SerialReturns k env =>
      match nth_error (racers s) k with
      | Some r =>
          match standing r,
                dialSerial ctx dp (if isPrimary r then primaries else fallbacks) env
          with
          | Dialing, Ret ((c, err), _) => Some (setStage k (Offering c err) s)
          | _, _ => None
          end
      | None => None
      end
  | RecvResult k =>
      match pc s, nth_error (racers s) k with
      | Selecting, Some r =>
          match standing r with
          | Offering c err =>
              Some (onResult (mkDialResult c err (isPrimary r) true)
                             (setStage k (Delivered c err) s))
          | _ => None
          end
      | _, _ => None
      end
  | SeeReturned k =>
      match returned s, nth_error (racers s) k with
      | true, Some r =>
          match standing r with
          | Offering c err =>
              Some (closeConn c (setStage k (Abandoned c err) s))
          | _ => None
          end
      | _, _ => None
      end
  end.

(** Running a sequence of events. *)
Fixpoint run (evs : list event) (s : race) : option race :=
  match evs with
  | [] => Some s
  | ev :: evs' =>
      match step ev s with
      | Some s' => run evs' s'
      | None => None
      end
  end.

(** The states a race can reach. *)
Definition reachable (s : race) : Prop :=
  exists t0 evs, run evs (initial t0) = Some s.

End Race.

(** ** The rest of dial.go: deadlines and [DialContext] *)

(** [func minNonzeroTime(a, b time.Time) time.Time] *)
Definition minNonzeroTime (a b : time.Time) : time.Time :=
  if time.IsZero a then b
  else if time.IsZero b || time.Before a b then a
  else b.

(** [func (d *Dialer) deadline(ctx, now time.Time) (earliest time.Time)] *)
Definition Dialer_deadline (d : Dialer) (ctx : Context) (now : time.Time)
  : time.Time :=
  let earliest :=
    if negb (Timeout d =? 0) then time.Add now (Timeout d) else time.zero in
  let earliest :=
    match ctxDeadline ctx with
    | Some dl => minNonzeroTime earliest dl
    | None => earliest
    end in
  minNonzeroTime earliest (Deadline d).

(** [context.WithDeadline(parent, d)], as far as deadlines go: the parent
    itself when its deadline is already earlier than [d]. *)
Definition WithDeadline (parent : Context) (d : time.Time) : Context :=
  match ctxDeadline parent with
  | Some cur => if time.Before cur d then parent else mkContext (Some d)
  | None => mkContext (Some d)
  end.

(** The context [DialContext] resolves and dials under: lines 269 to 276. *)
Definition dialContextCtx (d : Dialer) (ctx : Context) (now : time.Time)
  : Context :=
  let deadline := Dialer_deadline d ctx now in
  if negb (time.IsZero deadline) then
    match ctxDeadline ctx with
    | Some d' =>
        if time.Before deadline d' then WithDeadline ctx deadline else ctx
    | None => WithDeadline ctx deadline
    end
  else ctx.

(** What [DialContext] ends in: the wrapped resolution error, or the call of
    [dialSerial] or of [dialParallel] whose result it passes on. *)
Inductive handoff : Type :=
| Fails (err : error)
| Serially (ctx : Context) (dp : dialParam) (ras : addrList)
| Racing (ctx : Context) (dp : dialParam) (primaries fallbacks : addrList).

Section DialContext.

Variable IP_String : ip.IP -> string.
Variable itoa : Z -> string.

(** [addrs.partition(isIPv4)]: both are declared in another file of the
    package; [DialContext] is parametric in the partition. *)
Variable partitionIPv4 : addrList -> addrList * addrList.

(** [func (d *Dialer) DialContext(ctx, network, address string)
    (net.Conn, error)], up to the call it ends in; [r] is [d.resolver()] and
    [now] the reading of [time.Now()]. *)
Definition DialContext (d : Dialer) (r : Resolver) (ctx : Context)
           (now : time.Time) (network address : string) : outcome handoff :=
  let ctx' := dialContextCtx d ctx now in
  match resolveAddrList IP_String itoa r "dial" network address (LocalAddr d) with
  | Panic => Panic
  | Ret (_, Some err) => Ret (Fails (OpError "dial" network None None err))
  | Ret (addrs, None) =>
      let dp := mkDialParam d network address in
      let (primaries, fallbacks) :=
        if DualStack d && String.eqb network "srt"
        then partitionIPv4 addrs
        else (addrs, []) in
      if Nat.ltb 0 (length fallbacks)
      then Ret (Racing ctx' dp primaries fallbacks)
      else Ret (Serially ctx' dp primaries)
  end.

End DialContext.

(** ** srtsock.go: [DialSRT] *)

(** [func (a *SRTAddr) opAddr() net.Addr]: the nil interface for the nil
    pointer. *)
Definition opAddr (a : option SRTAddr) : option Addr :=
  match a with
  | None => None
  | Some _ => Some (SRT a)
  end.

(** [func DialSRT(network string, laddr, raddr *SRTAddr)], which returns a
    [*SRTConn] and an error;
    [provider] is what [dialSRT] returns if it is called, and the third
    component tells whether it was called. *)
Definition DialSRT (network : string) (laddr raddr : option SRTAddr)
           (provider : SRTConnPtr * option error)
  : SRTConnPtr * option error * bool :=
  if negb (knownNetwork network) then
    (None, Some (OpError "dial" network (opAddr laddr) (opAddr raddr)
                         (UnknownNetworkError network)), false)
  else
    match raddr with
    | None =>
        (None, Some (OpError "dial" network (opAddr laddr) None
                             errMissingAddress), false)
    | Some _ =>
        match provider with
        | (_, Some err) =>
            (None, Some (OpError "dial" network (opAddr laddr) (opAddr raddr)
                                 err), true)
        | (c, None) => (c, None, true)
        end
    end.

(** ** internal/poll: [SendFile], and [sendFile] of package srt *)

(** [const maxSendfileSize int = 4 << 20] *)
Definition maxSendfileSize : Z := 4 * 2 ^ 20.

(** What one round of the loop of [SendFile] meets: the count and the error
    that [srtapi.Sendfile] returns, and the error of [waitWrite] if it is
    called. *)
Record sendRound : Type := mkSendRound {
  sent : Z;
  sendErr : option error;
  waitErr : option error
}.

Section SendFile.

(** Whether an error is [srtapi.EASYNCSND], a value of package srtapi. *)
Variable isEASYNCSND : error -> bool.

(** The [for remain > 0] loop of [SendFile] over the rounds [script], with
    the sizes it asked [srtapi.Sendfile] for; [None] when the rounds end
    while the loop still runs. *)
Fixpoint sendLoop (script : list sendRound) (remain written : Z)
         (asked : list Z) : option (Z * option error * Z * list Z) :=
  if remain <=? 0 then Some (written, None, remain, asked)
  else
    match script with
    | [] => None
    | r :: script' =>
        let n := if remain <? maxSendfileSize then remain else maxSendfileSize in
        let asked' := asked ++ [n] in
        let written' :=
          if 0 <? sent r then time.wrap64 (written + sent r) else written in
        let remain' :=
          if 0 <? sent r then time.wrap64 (remain - sent r) else remain in
        match sendErr r with
        | None =>
            if sent r =? 0 then Some (written', None, remain', asked')
            else sendLoop script' remain' written' asked'
        | Some e =>
            if isEASYNCSND e then
              match waitErr r with
              | None => sendLoop script' remain' written' asked'
              | Some e' => Some (written', Some e', remain', asked')
              end
            else Some (written', Some e, remain', asked')
        end
    end.

(** [func SendFile(dstFD *FD, r io.Reader, remain int64) (int64, error)]:
    [lock] is the error of [dstFD.writeLock()].  The result carries the
    bytes written, the error, what is left of [remain], and the sizes
    asked for. *)
Definition SendFile (lock : option error) (script : list sendRound)
           (remain : Z) : option (Z * option error * Z * list Z) :=
  match lock with
  | Some err => Some (0, Some err, remain, [])
  | None => sendLoop script remain 0 []
  end.

(** [wrapSyscallError] is declared in another file of package srt. *)
Variable wrapSyscallError : string -> option error -> option error.

(** [func sendFile(c *netFD, r io.Reader) (written int64, err error,
    handled bool)]: [lr] is [Some N] when the reader is an
    [*io.LimitedReader] with [N] bytes left.  The result carries [written],
    [err], [handled] and the new [lr.N]. *)
Definition sendFile (lock : option error) (script : list sendRound)
           (lr : option Z) : option (Z * option error * bool * option Z) :=
  let remain := match lr with Some n => n | None => 2 ^ 62 end in
  match lr with
  | Some n =>
      if n <=? 0 then Some (0, None, true, lr)
      else
        match SendFile lock script remain with
        | None => None
        | Some (written, err, _, _) =>
            Some (written, wrapSyscallError "sendfile" err, 0 <? written,
                  Some (time.wrap64 (remain - written)))
        end
  | None =>
      match SendFile lock script remain with
      | None => None
      | Some (written, err, _, _) =>
          Some (written, wrapSyscallError "sendfile" err, 0 <? written, None)
      end
  end.

End SendFile.

(** ** The shapes a race goes through *)

(** An outcome of [dialSerial]: a connection and no error, or no
    connection and an error. *)
Definition shaped (c : option Conn) (err : option error) : Prop :=
  (exists c', c = Some c' /\ err = None)
  \/ (exists e, c = None /\ err = Some e).

(** A racer that the loop has not heard a success from: still dialing,
    offering its outcome, or having delivered an error. *)
Definition pending (st : stage) : Prop :=
  match st with
  | Dialing => True
  | Offering c err => shaped c err
  | Delivered c err => c = None /\ exists e, err = Some e
  | Abandoned _ _ => False
  end.

(** A racer that cannot have been heard yet. *)
Definition early (st : stage) : Prop :=
  match st with
  | Dialing => True
  | Offering c err => shaped c err
  | _ => False
  end.

(** A racer whose connection, if it has one, did not reach the caller. *)
Definition lost (st : stage) : Prop :=
  match st with
  | Dialing => True
  | Offering c err => shaped c err
  | Delivered c err => c = None /\ exists e, err = Some e
  | Abandoned c err => shaped c err
  end.

(** The variable [primary] or [fallback] of the loop against the stage of
    the racer of that branch [b]. *)
Definition recorded (b : bool) (st : stage) (res : dialResult) : Prop :=
  match st with
  | Delivered c err => res = mkDialResult c err b true
  | _ => res = zeroResult
  end.

(** A racer that went through [<-returned] has closed its connection. *)
Definition closedOk (st : stage) (closed : list Conn) : Prop :=
  match st with
  | Abandoned (Some c) _ => In c closed
  | _ => True
  end.

(** While the fallback is not started the timer is pending, and it is or
    becomes due before the head start [delay], counted from the start [t0]
    of the primary, is over only if the primary has reported. *)
Definition timerOk (delay : time.Duration) (t0 now : time.Time)
           (pres : dialResult) (tm : timer) : Prop :=
  match tm with
  | Armed w =>
      time.sinceZero t0 + delay <= time.sinceZero w \/ done pres = true
  | Expired =>
      time.sinceZero t0 + delay <= time.sinceZero now \/ done pres = true
  | Idle => False
  end.

Definition notAfter (t u : time.Time) : Prop :=
  time.sinceZero t <= time.sinceZero u.

(** The states of a race, shape by shape: at the entry; returned from the
    serial short cut; primary started, timer not yet created; in the loop
    with the primary alone; in the loop with both racers; returned with the
    primary alone, which won; returned with both racers, one of which won
    or both of which failed. *)
Inductive Inv (delay : time.Duration) : race -> Prop :=
| InvEntry t :
    Inv delay (mkRace t Entry zeroResult zeroResult Idle false [] [])
| InvSerial t c err :
    shaped c err ->
    Inv delay (mkRace t (Returned c err) zeroResult zeroResult Idle false [] [])
| InvArming t t0 st :
    notAfter t0 t -> early st ->
    Inv delay (mkRace t Arming zeroResult zeroResult Idle false
                      [mkRacer true t0 st] [])
| InvHead t t0 st pres tm :
    notAfter t0 t -> pending st -> recorded true st pres ->
    timerOk delay t0 t pres tm ->
    Inv delay (mkRace t Selecting pres zeroResult tm false
                      [mkRacer true t0 st] [])
| InvBoth t t0 t1 pst fst pres fres :
    notAfter t0 t1 -> notAfter t1 t ->
    pending pst -> pending fst ->
    recorded true pst pres -> recorded false fst fres ->
    ~ (done pres = true /\ done fres = true) ->
    Inv delay (mkRace t Selecting pres fres Idle false
                      [mkRacer true t0 pst; mkRacer false t1 fst] [])
| InvWonAlone t t0 c' pres fres tm :
    notAfter t0 t ->
    Inv delay (mkRace t (Returned (Some c') None) pres fres tm true
                      [mkRacer true t0 (Delivered (Some c') None)] [])
| InvWonPrimary t t0 t1 c' fst pres fres tm closed :
    notAfter t0 t1 -> notAfter t1 t ->
    lost fst -> closedOk fst closed ->
    Inv delay (mkRace t (Returned (Some c') None) pres fres tm true
                      [mkRacer true t0 (Delivered (Some c') None);
                       mkRacer false t1 fst] closed)
| InvWonFallback t t0 t1 c' pst pres fres tm closed :
    notAfter t0 t1 -> notAfter t1 t ->
    lost pst -> closedOk pst closed ->
    Inv delay (mkRace t (Returned (Some c') None) pres fres tm true
                      [mkRacer true t0 pst;
                       mkRacer false t1 (Delivered (Some c') None)] closed)
| InvFailed t t0 t1 ep ef pres fres tm :
    notAfter t0 t1 -> notAfter t1 t ->
    Inv delay (mkRace t (Returned None (Some ep)) pres fres tm true
                      [mkRacer true t0 (Delivered None (Some ep));
                       mkRacer false t1 (Delivered None (Some ef))] []).

(** ** The filtering rule, for stating what [resolveAddrList] keeps *)

(** Whether hint filtering against the non-wildcard SRT hint [h] keeps the
    candidate [a]: an SRT candidate stays when it is a wildcard or when its
    address family matches that of [h]. *)
Definition retained (h : SRTAddr) (a : Addr) : bool :=
  match a with
  | SRT None => true
  | SRT (Some a') => isWildcard (Some a') || matchAddrFamily a' (IP h)
  | Foreign _ _ => false
  end.

(** The candidate is a [*SRTAddr]. *)
Definition isEndpoint (a : Addr) : bool :=
  match a with
  | SRT _ => true
  | Foreign _ _ => false
  end.

(** [l] is [m] with some elements left out, the others in their order. *)
Inductive subsequence {A : Type} : list A -> list A -> Prop :=
| sub_nil : subsequence [] []
| sub_keep x l m : subsequence l m -> subsequence (x :: l) (x :: m)
| sub_drop x l m : subsequence l m -> subsequence l (x :: m).

(** Whether the loop of [resolveAddrList] keeps candidate [a] under hint
    [h], whatever the type of the hint: the network names agree, the
    candidate is an SRT address, and the hint or the candidate is a wildcard
    or their families match. *)
Definition stays (h : Addr) (a : Addr) : bool :=
  String.eqb (Network a) (Network h)
  && match a with
     | SRT p =>
         hintWildcard h || isWildcard p
         || match hintSRT h, p with
            | Some s, Some a' => matchAddrFamily a' (IP s)
            | _, _ => false
            end
     | Foreign _ _ => false
     end.

(** The errors of [dialSerial] that name a candidate: an [OpError] of
    operation "dial" on the network of the call, with the local address of
    the dialer and one of the candidates [ras]. *)
Definition dialError (dp : dialParam) (ras : addrList) (e : error) : Prop :=
  exists a cause,
    In a ras
    /\ e = OpError "dial" (network dp) (LocalAddr (dialer dp)) (Some a) cause.

(** ** Sample values *)

(** Printers that print nothing, for running the resolver on samples. *)
Definition noIP : ip.IP -> string := fun _ => ""%string.
Definition noItoa : Z -> string := fun _ => ""%string.

(** A resolver whose lookup yields the candidates [l]. *)
Definition lookupYields (l : addrList) : Resolver :=
  mkResolver (fun _ _ => (l, None)).

(** 10.0.0.1:0, a local address to dial from. *)
Definition local4 : SRTAddr :=
  mkSRTAddr (Some [x0a; x00; x00; x01]) 0 "".

(** 0.0.0.0:0 *)
Definition any4 : SRTAddr :=
  mkSRTAddr (Some [x00; x00; x00; x00]) 0 "".

(** 10.0.0.2:9000 *)
Definition peer4 : SRTAddr :=
  mkSRTAddr (Some [x0a; x00; x00; x02]) 9000 "".

(** [2001:db8::1]:9000 *)
Definition peer6 : SRTAddr :=
  mkSRTAddr (Some [x20; x01; x0d; xb8; x00; x00; x00; x00;
                   x00; x00; x00; x00; x00; x00; x00; x01]) 9000 "".

(** [::]:9000, the unspecified IPv6 address. *)
Definition any6 : SRTAddr :=
  mkSRTAddr (Some (repeat x00 16)) 9000 "".

(** Candidates of both families and a wildcard. *)
Definition sampleCands : addrList :=
  [SRT (Some peer6); SRT (Some peer4); SRT (Some any6)].

(** A dialer with no option set, dialing example.net:9000 over "srt". *)
Definition plainDialer : Dialer := mkDialer 0 time.zero None false 0.
Definition plainParam : dialParam :=
  mkDialParam plainDialer "srt" "example.net:9000".

(** A context without deadline. *)
Definition background : Context := mkContext None.

(** Some instant of the year 2026. *)
Definition someday : time.Time := time.Instant 63900000000000000000.

(** A round in which the context is alive and the provider refuses the
    connection, and one in which the context is found cancelled. *)
Definition refusedRound : round :=
  mkRound None someday (None, Some (Errno 111)).
Definition cancelledRound : round :=
  mkRound (Some Canceled) someday (None, Some (Errno 111)).

(** A round in which the provider connects, over socket handle [h]. *)
Definition connectRound (h : Z) : round :=
  mkRound None someday (Some h, None).

(** The first attempt is refused, then the context is cancelled. *)
Definition refusedThenCancelled (i : nat) : round :=
  match i with
  | O => refusedRound
  | S _ => cancelledRound
  end.

(** The first attempt is refused, the second connects. *)
Definition refusedThenConnected (i : nat) : round :=
  match i with
  | O => refusedRound
  | S _ => connectRound 5
  end.

(** A race in which both branches are refused: the primary fails at once,
    the timer is reset and fires, the fallback fails too. *)
Definition failingRace : list event :=
  [GoPrimary; NewTimer; SerialReturns 0 (fun _ => refusedRound); RecvResult 0;
   Fire; RecvTimer; SerialReturns 1 (fun _ => refusedRound); RecvResult 1].

(** A race that the fallback wins after the head start of 300ms; the
    primary connects afterwards and finds [returned] closed. *)
Definition fallbackWins : list event :=
  [GoPrimary; NewTimer; Tick (300 * time.Millisecond); Fire; RecvTimer;
   SerialReturns 1 (fun _ => connectRound 5); RecvResult 1;
   SerialReturns 0 (fun _ => connectRound 6); SeeReturned 0].

(** The head start is over, the timer has fired, the loop has not yet
    taken its case. *)
Definition timerFired : list event :=
  [GoPrimary; NewTimer; Tick (300 * time.Millisecond); Fire].

(** The state after the events [evs] of a race for [2001:db8::1]:9000 with
    10.0.0.2:9000 as fallback, started at [someday]. *)
Definition stateAfter (evs : list event) : race :=
  match run background plainParam [SRT (Some peer6)] [SRT (Some peer4)]
            evs (initial someday) with
  | Some s => s
  | None => initial someday
  end.

(** The error a refused dial of [2001:db8::1]:9000 comes back with. *)
Definition refused6 : error :=
  OpError "dial" "srt" None (Some (SRT (Some peer6))) (Errno 111).

(** * Verified properties *)

(** ** The deadline allocator *)

Lemma Sub_inDuration (t u : time.Time) : time.inDuration (time.Sub t u).
Proof.
  unfold time.inDuration, time.Sub, time.minDuration, time.maxDuration.
  destruct (Z.ltb_spec (time.sinceZero t - time.sinceZero u) (- 2 ^ 63)).
  - lia.
  - destruct (Z.ltb_spec (2 ^ 63 - 1) (time.sinceZero t - time.sinceZero u)); lia.
Qed.

Lemma Sub_exact (t u : time.Time) :
  time.inDuration (time.sinceZero t - time.sinceZero u) ->
  time.Sub t u = time.sinceZero t - time.sinceZero u.
Proof.
  unfold time.inDuration, time.Sub. intros [Hlo Hhi].
  destruct (Z.ltb_spec (time.sinceZero t - time.sinceZero u) time.minDuration);
    [lia|].
  destruct (Z.ltb_spec time.maxDuration (time.sinceZero t - time.sinceZero u));
    [lia|reflexivity].
Qed.

Lemma wrap64_id (z : Z) : time.inDuration z -> time.wrap64 z = z.
Proof.
  unfold time.inDuration, time.minDuration, time.maxDuration, time.wrap64.
  intros H. rewrite Z.mod_small; lia.
Qed.

Lemma quot_bounds (a b : Z) : 0 < a -> 0 < b -> 0 <= Z.quot a b <= a.
Proof.
  intros Ha Hb. rewrite Z.quot_div_nonneg by lia. split.
  - apply Z.div_pos; lia.
  - apply Z.div_le_upper_bound; nia.
Qed.

(** The share of one address never wraps: the division is exact [int64]
    arithmetic whenever time remains and addresses remain. *)
Lemma div_share (tr n : Z) :
  time.inDuration tr -> 0 < tr -> 0 < n ->
  time.div tr n = Ret (Z.quot tr n).
Proof.
  intros Hr Htr Hn. unfold time.div.
  destruct (Z.eqb_spec n 0); [lia|].
  rewrite wrap64_id; [reflexivity|].
  pose proof (quot_bounds tr n Htr Hn).
  unfold time.inDuration, time.minDuration, time.maxDuration in *. lia.
Qed.

(** With a deadline that is set and not yet reached, [partialDeadline]
    returns [now] plus the clamped share. *)
Lemma partialDeadline_share (now deadline : time.Time) (n : Z) :
  0 < n ->
  time.IsZero deadline = false ->
  0 < time.Sub deadline now ->
  partialDeadline now deadline n =
  Ret (time.Add now
         (if Z.quot (time.Sub deadline now) n <? saneMinimum
          then if time.Sub deadline now <? saneMinimum
               then time.Sub deadline now else saneMinimum
          else Z.quot (time.Sub deadline now) n), None).
Proof.
  intros Hn Hz Hr. unfold partialDeadline. rewrite Hz.
  destruct (Z.leb_spec (time.Sub deadline now) 0); [lia|].
  rewrite div_share; auto using Sub_inDuration.
Qed.

(** [partialDeadline] never panics when addresses remain. *)
Lemma partialDeadline_returns (now deadline : time.Time) (n : Z) :
  0 < n -> exists r, partialDeadline now deadline n = Ret r.
Proof.
  intros Hn. unfold partialDeadline.
  destruct (time.IsZero deadline) eqn:Hz; [eauto|].
  destruct (Z.leb_spec (time.Sub deadline now) 0); [eauto|].
  rewrite div_share; eauto using Sub_inDuration.
Qed.

(** C1.  For every [now], deadline and positive count of remaining
    addresses, [partialDeadline] returns the unset deadline and no error
    when the deadline is unset; else the Timeout error when the time
    remaining, [deadline.Sub(now)], is not positive; else [now] plus the
    budget: the quotient of the time remaining by the count when that is at
    least 2s, exactly 2s when the quotient is below 2s and at least 2s
    remain, and all the time remaining when less than 2s remain.  In
    particular a deadline 10s ahead shared by 4 gives 2.5s, one 3s ahead
    shared by 4 gives 2s, and one 1s in the past fails with Timeout. *)
Theorem partialDeadline_spec (now deadline : time.Time) (n : Z) :
  0 < n ->
  (time.IsZero deadline = true ->
   partialDeadline now deadline n = Ret (deadline, None))
  /\ (time.IsZero deadline = false -> time.Sub deadline now <= 0 ->
      partialDeadline now deadline n = Ret (time.zero, Some ErrTimeout))
  /\ (time.IsZero deadline = false -> 0 < time.Sub deadline now ->
      let timeRemaining := time.Sub deadline now in
      let share := Z.quot timeRemaining n in
      share = timeRemaining / n
      /\ (2 * time.Second <= share ->
          partialDeadline now deadline n = Ret (time.Add now share, None))
      /\ (share < 2 * time.Second -> 2 * time.Second <= timeRemaining ->
          partialDeadline now deadline n =
          Ret (time.Add now (2 * time.Second), None))
      /\ (timeRemaining < 2 * time.Second ->
          partialDeadline now deadline n =
          Ret (time.Add now timeRemaining, None)))
  /\ (time.IsZero (time.Add now (10 * time.Second)) = false ->
      partialDeadline now (time.Add now (10 * time.Second)) 4 =
      Ret (time.Add now (2500 * time.Millisecond), None))
  /\ (time.IsZero (time.Add now (3 * time.Second)) = false ->
      partialDeadline now (time.Add now (3 * time.Second)) 4 =
      Ret (time.Add now (2 * time.Second), None))
  /\ (time.IsZero (time.Add now (- (1 * time.Second))) = false ->
      partialDeadline now (time.Add now (- (1 * time.Second))) 1 =
      Ret (time.zero, Some ErrTimeout)).
Proof.
  intros Hn. repeat split.
  - intros Hz. unfold partialDeadline. now rewrite Hz.
  - intros Hz Hr. unfold partialDeadline. rewrite Hz.
    destruct (Z.leb_spec (time.Sub deadline now) 0); [reflexivity|lia].
  - apply Z.quot_div_nonneg; lia.
  - intros Hs. rewrite partialDeadline_share by assumption.
    fold saneMinimum in Hs.
    destruct (Z.ltb_spec (Z.quot (time.Sub deadline now) n) saneMinimum);
      [lia|reflexivity].
  - intros Hs Hr. rewrite partialDeadline_share by assumption.
    fold saneMinimum in Hs, Hr |- *.
    destruct (Z.ltb_spec (Z.quot (time.Sub deadline now) n) saneMinimum);
      [|lia].
    destruct (Z.ltb_spec (time.Sub deadline now) saneMinimum);
      [lia|reflexivity].
  - intros Hr. rewrite partialDeadline_share by assumption.
    fold saneMinimum in Hr.
    pose proof (quot_bounds (time.Sub deadline now) n ltac:(assumption) Hn).
    destruct (Z.ltb_spec (Z.quot (time.Sub deadline now) n) saneMinimum);
      [|lia].
    destruct (Z.ltb_spec (time.Sub deadline now) saneMinimum);
      [reflexivity|lia].
  - intros Hz. unfold partialDeadline. rewrite Hz.
    rewrite Sub_exact;
      cbn [time.Add time.sinceZero];
      replace (time.sinceZero now + 10 * time.Second - time.sinceZero now)
        with 10000000000 by (unfold time.Second; lia);
      [reflexivity | unfold time.inDuration, time.minDuration, time.maxDuration; lia].
  - intros Hz. unfold partialDeadline. rewrite Hz.
    rewrite Sub_exact;
      cbn [time.Add time.sinceZero];
      replace (time.sinceZero now + 3 * time.Second - time.sinceZero now)
        with 3000000000 by (unfold time.Second; lia);
      [reflexivity | unfold time.inDuration, time.minDuration, time.maxDuration; lia].
  - intros Hz. unfold partialDeadline. rewrite Hz.
    rewrite Sub_exact;
      cbn [time.Add time.sinceZero];
      replace (time.sinceZero now + - (1 * time.Second) - time.sinceZero now)
        with (-1000000000) by (unfold time.Second; lia);
      [reflexivity | unfold time.inDuration, time.minDuration, time.maxDuration; lia].
Qed.

Lemma partialDeadline_spec_witness :
  0 < 4
  /\ partialDeadline (time.Instant 7) (time.Instant 10000000007) 4 =
     Ret (time.Instant 2500000007, None).
Proof.
  split; [lia|].
  destruct (partialDeadline_spec (time.Instant 7) (time.Instant 10000000007) 4
              ltac:(lia)) as (_ & _ & _ & H & _).
  exact (H eq_refl).
Defined.

(** ** The resolver *)

Lemma knownNetwork_true (network : string) :
  knownNetwork network = true <->
  network = "srt"%string \/ network = "srt4"%string \/ network = "srt6"%string.
Proof.
  unfold knownNetwork. rewrite !orb_true_iff, !String.eqb_eq. tauto.
Qed.

Lemma knownNetwork_false (network : string) :
  network <> "srt"%string -> network <> "srt4"%string ->
  network <> "srt6"%string -> knownNetwork network = false.
Proof.
  intros H1 H2 H3. destruct (knownNetwork network) eqn:E; [|reflexivity].
  apply knownNetwork_true in E. tauto.
Qed.

Lemma filter_subsequence {A : Type} (f : A -> bool) (l : list A) :
  subsequence (filter f l) l.
Proof.
  induction l as [|x l IH]; simpl.
  - constructor.
  - destruct (f x); constructor; exact IH.
Qed.

Section ResolveFacts.

Variable IP_String : ip.IP -> string.
Variable itoa : Z -> string.

Local Abbreviation resolve := (resolveAddrList IP_String itoa).
Local Abbreviation loop := (filterLoop IP_String itoa).
Local Abbreviation show := (Addr_String IP_String itoa).
Local Abbreviation closing := (closing IP_String itoa).

Lemma loop_nil hint srt wildcard naddrs :
  loop hint srt wildcard [] naddrs = closing hint naddrs.
Proof. destruct naddrs; reflexivity. Qed.

(** The loop succeeds only with a non-empty list. *)
Lemma loop_nonempty hint srt wildcard addrs :
  forall naddrs l,
    loop hint srt wildcard addrs naddrs = Ret (l, None) -> l <> [].
Proof.
  induction addrs as [|a addrs IH]; intros naddrs l H.
  - rewrite loop_nil in H. destruct naddrs; inversion H. discriminate.
  - simpl in H.
    destruct (negb (Network a =? Network hint)%string); [discriminate|].
    destruct a as [p|n s]; [|eauto].
    destruct (negb wildcard && negb (isWildcard p)); [|eauto].
    destruct srt as [s|]; [|discriminate].
    destruct p as [a'|]; [|discriminate].
    destruct (negb (matchAddrFamily a' (IP s))); eauto.
Qed.

(** Against a non-wildcard SRT hint the loop is [filter retained]. *)
Lemma loop_srt_hint (h : SRTAddr) (addrs : addrList) :
  isWildcard (Some h) = false ->
  Forall (fun a => Network a = "srt"%string) addrs ->
  forall naddrs,
    loop (SRT (Some h)) (Some h) false addrs naddrs =
    closing (SRT (Some h)) (naddrs ++ filter (retained h) addrs).
Proof.
  intros Hw Hall. induction Hall as [|a addrs Ha _ IH]; intros naddrs.
  - rewrite loop_nil, app_nil_r. reflexivity.
  - cbn [filterLoop]. rewrite Ha. cbn [Network].
    rewrite String.eqb_refl. cbn [negb].
    destruct a as [[a'|]|n s]; cbn [negb andb filter retained].
    + destruct (isWildcard (Some a')); cbn [negb orb].
      * rewrite IH, <- app_assoc. reflexivity.
      * destruct (matchAddrFamily a' (IP h)); cbn [negb].
        -- rewrite IH, <- app_assoc. reflexivity.
        -- apply IH.
    + cbn [isWildcard negb]. rewrite IH, <- app_assoc. reflexivity.
    + apply IH.
Qed.

(** Against a wildcard SRT hint the loop keeps every SRT candidate. *)
Lemma loop_wildcard_hint (p : option SRTAddr) (addrs : addrList) :
  Forall (fun a => Network a = "srt"%string) addrs ->
  forall naddrs,
    loop (SRT p) p true addrs naddrs =
    closing (SRT p) (naddrs ++ filter isEndpoint addrs).
Proof.
  intros Hall. induction Hall as [|a addrs Ha _ IH]; intros naddrs.
  - rewrite loop_nil, app_nil_r. reflexivity.
  - cbn [filterLoop]. rewrite Ha. cbn [Network].
    rewrite String.eqb_refl. cbn [negb andb].
    destruct a as [q|n s]; cbn [filter isEndpoint].
    + rewrite IH, <- app_assoc. reflexivity.
    + apply IH.
Qed.

Lemma filter_isEndpoint (addrs : addrList) :
  forallb isEndpoint addrs = true -> filter isEndpoint addrs = addrs.
Proof.
  induction addrs as [|a addrs IH]; simpl; [reflexivity|].
  destruct (isEndpoint a); simpl; [|discriminate].
  intros H. now rewrite IH.
Qed.

Lemma endpoints_network (addrs : addrList) :
  forallb isEndpoint addrs = true ->
  Forall (fun a => Network a = "srt"%string) addrs.
Proof.
  induction addrs as [|a addrs IH]; simpl; [constructor|].
  destruct a; simpl; [|discriminate].
  intros H. constructor; auto.
Qed.

(** A candidate of another network kind than the hint fails the loop. *)
Lemma loop_mismatch (h : Addr) (addrs : addrList) :
  hintTyped h ->
  Exists (fun a => Network a <> Network h) addrs ->
  forall naddrs,
    loop h (hintSRT h) (hintWildcard h) addrs naddrs =
    Ret ([], Some (AddrError mismatchedText (show h))).
Proof.
  intros Ht Hex.
  remember (hintSRT h) as srt eqn:Hsrt.
  remember (hintWildcard h) as wc eqn:Hwc.
  induction addrs as [|a addrs IH]; intros naddrs.
  - inversion Hex.
  - cbn [filterLoop].
    destruct (String.eqb_spec (Network a) (Network h)) as [E|E];
      cbn [negb]; [|reflexivity].
    assert (Hrest : Exists (fun a => Network a <> Network h) addrs)
      by (inversion Hex; subst; [contradiction | assumption]).
    destruct a as [q|n s]; [|auto].
    destruct (negb wc && negb (isWildcard q)) eqn:C; [|auto].
    apply andb_true_iff in C. destruct C as [C1 C2].
    apply negb_true_iff in C1, C2. subst wc.
    destruct h as [p|n s]; cbn [hintSRT hintWildcard] in *.
    + destruct p as [hs|]; [|discriminate]. subst srt.
      destruct q as [a'|]; [|discriminate].
      destruct (matchAddrFamily a' (IP hs)); cbn [negb]; auto.
    + cbn [Network hintTyped] in E, Ht. congruence.
Qed.

(** In dial mode, with a known network, an address and a hint, the call
    is the loop over what the lookup returned. *)
Lemma resolve_dial_hint (r : Resolver) (network addr : string) (h : Addr)
      (cands : addrList) :
  knownNetwork network = true ->
  addr <> ""%string ->
  internetAddrList r network addr = (cands, None) ->
  resolve r "dial" network addr (Some h) =
  loop h (hintSRT h) (hintWildcard h) cands [].
Proof.
  intros Hk Ha Hl. unfold resolveAddrList, parseNetwork. rewrite Hk.
  destruct (String.eqb_spec addr ""); [contradiction|].
  cbn [String.eqb Ascii.eqb Bool.eqb andb]. rewrite Hl. reflexivity.
Qed.

(** C5.  [resolveAddrList] checks the network first and the address
    second: for every operation, address and hint, a network other than
    "srt", "srt4" and "srt6" fails with the UnknownNetwork error of that
    network; and when the network is one of the three, dialing an empty
    address fails with the MissingAddress error. *)
Theorem resolveAddrList_validation
        (r : Resolver) (op network addr : string) (hint : option Addr) :
  (network <> "srt"%string -> network <> "srt4"%string ->
   network <> "srt6"%string ->
   resolve r op network addr hint =
   Ret ([], Some (UnknownNetworkError network)))
  /\ (network = "srt"%string \/ network = "srt4"%string
      \/ network = "srt6"%string ->
      op = "dial"%string -> addr = ""%string ->
      resolve r op network addr hint = Ret ([], Some errMissingAddress)).
Proof.
  split.
  - intros H1 H2 H3. unfold resolveAddrList, parseNetwork.
    now rewrite knownNetwork_false.
  - intros Hk Hop Ha. apply knownNetwork_true in Hk.
    unfold resolveAddrList, parseNetwork. rewrite Hk. subst op addr.
    reflexivity.
Qed.

(** C6.  When the lookup of the resolver keeps its contract (a non-empty
    list whenever it reports no error), a call of [resolveAddrList] that
    returns a nil error returns a non-empty list. *)
Theorem resolveAddrList_nonempty
        (r : Resolver) (op network addr : string) (hint : option Addr)
        (l : addrList) :
  lookupNonEmpty r ->
  resolve r op network addr hint = Ret (l, None) ->
  l <> [].
Proof.
  intros Hr. unfold resolveAddrList, parseNetwork.
  destruct (knownNetwork network); [|discriminate].
  destruct ((op =? "dial")%string && (addr =? "")%string); [discriminate|].
  destruct (internetAddrList r network addr) as [addrs err] eqn:Hl.
  destruct err as [e|].
  - destruct (op =? "dial")%string, hint; discriminate.
  - destruct (op =? "dial")%string, hint as [h|];
      try (intros H; inversion H; subst; eapply Hr; eassumption).
    apply loop_nonempty.
Qed.

(** The hint-filtering path needs no contract: its own emptiness check
    makes every success non-empty. *)
Lemma resolveAddrList_filtered_nonempty
      (r : Resolver) (network addr : string) (h : Addr) (l : addrList) :
  resolve r "dial" network addr (Some h) = Ret (l, None) -> l <> [].
Proof.
  unfold resolveAddrList, parseNetwork.
  destruct (knownNetwork network); [|discriminate].
  destruct (("dial" =? "dial")%string && (addr =? "")%string); [discriminate|].
  destruct (internetAddrList r network addr) as [addrs [e|]];
    cbn [String.eqb Ascii.eqb Bool.eqb]; [discriminate|].
  apply loop_nonempty.
Qed.

Lemma retained_dropped (h : SRTAddr) (q : option SRTAddr) :
  retained h (SRT q) = false ->
  exists a', q = Some a' /\ isWildcard q = false
             /\ matchAddrFamily a' (IP h) = false.
Proof.
  destruct q as [a'|]; cbn [retained]; [|discriminate].
  intros H. apply orb_false_iff in H. destruct H as [H1 H2]. eauto.
Qed.

Lemma retained_wildcard (h : SRTAddr) (q : option SRTAddr) :
  isWildcard q = true -> retained h (SRT q) = true.
Proof.
  destruct q as [a'|]; cbn [retained]; [|reflexivity].
  intros H. rewrite H. reflexivity.
Qed.

(** C3, as amended.  In dial mode, against a supplied SRT hint that is not
    a wildcard, [resolveAddrList] drops exactly the candidates that are not
    wildcards themselves and whose address family does not match the
    hint's, and keeps the others in their order; when nothing is kept it
    fails with NoSuitableAddress.  A candidate whose network name differs
    from the hint's makes the call fail with the mismatched-address-type
    error.  Against a wildcard hint the list of candidate endpoints comes
    back unchanged. *)
Theorem resolveAddrList_hint_filter
        (r : Resolver) (network addr : string) (cands : addrList) :
  knownNetwork network = true ->
  addr <> ""%string ->
  internetAddrList r network addr = (cands, None) ->
  (forall h : SRTAddr,
      isWildcard (Some h) = false ->
      Forall (fun a => Network a = "srt"%string) cands ->
      let kept := filter (retained h) cands in
      subsequence kept cands
      /\ (forall q, In (SRT q) kept <->
                    In (SRT q) cands
                    /\ (isWildcard q = true
                        \/ exists a', q = Some a'
                                      /\ matchAddrFamily a' (IP h) = true))
      /\ (kept <> [] ->
          resolve r "dial" network addr (Some (SRT (Some h))) =
          Ret (kept, None))
      /\ (kept = [] ->
          resolve r "dial" network addr (Some (SRT (Some h))) =
          Ret ([], Some (AddrError errNoSuitableAddress_Error
                                   (show (SRT (Some h)))))))
  /\ (forall h : Addr,
         hintTyped h ->
         Exists (fun a => Network a <> Network h) cands ->
         resolve r "dial" network addr (Some h) =
         Ret ([], Some (AddrError mismatchedText (show h))))
  /\ (forall p : option SRTAddr,
         isWildcard p = true ->
         forallb isEndpoint cands = true ->
         cands <> [] ->
         resolve r "dial" network addr (Some (SRT p)) = Ret (cands, None)).
Proof.
  intros Hk Ha Hl. split; [|split].
  - intros h Hw Hall kept. subst kept.
    assert (Hres : resolve r "dial" network addr (Some (SRT (Some h))) =
                   closing (SRT (Some h)) (filter (retained h) cands)).
    { rewrite (resolve_dial_hint r network addr _ cands Hk Ha Hl).
      cbn [hintSRT hintWildcard]. rewrite Hw.
      now rewrite loop_srt_hint. }
    split; [apply filter_subsequence|].
    split; [|split].
    + intros q. split.
      * intros Hin. apply filter_In in Hin. destruct Hin as [Hin Hret].
        split; [assumption|].
        destruct q as [a'|]; [|left; reflexivity].
        cbn [retained] in Hret. apply orb_true_iff in Hret.
        destruct Hret as [Hq|Hm]; [left; assumption | right; eauto].
      * intros [Hin Hq]. apply filter_In. split; [assumption|].
        destruct Hq as [Hq|(a' & -> & Hm)].
        -- now apply retained_wildcard.
        -- cbn [retained]. rewrite Hm. apply orb_true_r.
    + intros Hne. rewrite Hres.
      destruct (filter (retained h) cands); [contradiction|reflexivity].
    + intros He. rewrite Hres, He. reflexivity.
  - intros h Ht Hex.
    rewrite (resolve_dial_hint r network addr _ cands Hk Ha Hl).
    now apply loop_mismatch.
  - intros p Hw Hep Hne.
    rewrite (resolve_dial_hint r network addr _ cands Hk Ha Hl).
    cbn [hintSRT hintWildcard]. rewrite Hw.
    rewrite loop_wildcard_hint by now apply endpoints_network.
    cbn [app]. rewrite filter_isEndpoint by assumption.
    destruct cands; [contradiction|reflexivity].
Qed.

(** C9.  During hint filtering against a non-wildcard SRT hint, a
    candidate that is itself a wildcard is always retained, whatever its
    address family; the candidate endpoints that are dropped are exactly
    those that are both non-wildcard and of a family that does not match
    the hint's. *)
Theorem resolveAddrList_keeps_wildcards
        (r : Resolver) (network addr : string) (cands : addrList)
        (h : SRTAddr) :
  knownNetwork network = true ->
  addr <> ""%string ->
  internetAddrList r network addr = (cands, None) ->
  isWildcard (Some h) = false ->
  Forall (fun a => Network a = "srt"%string) cands ->
  (forall q, In (SRT q) cands -> isWildcard q = true ->
             exists l,
               resolve r "dial" network addr (Some (SRT (Some h))) =
               Ret (l, None)
               /\ In (SRT q) l)
  /\ (forall l,
         resolve r "dial" network addr (Some (SRT (Some h))) = Ret (l, None) ->
         l = filter (retained h) cands
         /\ (forall q, In (SRT q) cands -> isWildcard q = true ->
                       In (SRT q) l)
         /\ (forall q, In (SRT q) cands -> ~ In (SRT q) l ->
                       exists a', q = Some a' /\ isWildcard q = false
                                  /\ matchAddrFamily a' (IP h) = false)
         /\ (forall a', In (SRT (Some a')) cands ->
                        isWildcard (Some a') = false ->
                        matchAddrFamily a' (IP h) = false ->
                        ~ In (SRT (Some a')) l)).
Proof.
  intros Hk Ha Hl Hw Hall.
  assert (Hres : resolve r "dial" network addr (Some (SRT (Some h))) =
                 closing (SRT (Some h)) (filter (retained h) cands)).
  { rewrite (resolve_dial_hint r network addr _ cands Hk Ha Hl).
    cbn [hintSRT hintWildcard]. rewrite Hw.
    now rewrite loop_srt_hint. }
  split.
  - intros q Hin Hq. rewrite Hres.
    assert (Hkept : In (SRT q) (filter (retained h) cands))
      by (apply filter_In; split; [assumption | now apply retained_wildcard]).
    destruct (filter (retained h) cands) as [|x kept] eqn:E;
      [contradiction|].
    exists (x :: kept). split; [reflexivity | assumption].
  - intros l Hr. rewrite Hres in Hr.
    assert (El : l = filter (retained h) cands).
    { destruct (filter (retained h) cands); cbn in Hr; congruence. }
    subst l. repeat split.
    + intros q Hin Hq. apply filter_In.
      split; [assumption | now apply retained_wildcard].
    + intros q Hin Hout. apply retained_dropped.
      destruct (retained h (SRT q)) eqn:E; [|reflexivity].
      exfalso. apply Hout. apply filter_In. auto.
    + intros a' Hin Hnw Hnm Hkept. apply filter_In in Hkept.
      destruct Hkept as [_ Hret]. cbn [retained] in Hret.
      rewrite Hnw, Hnm in Hret. discriminate.
Qed.

End ResolveFacts.

(** *** The resolver on samples *)

(** The unspecified IPv6 address survives the filtering against the IPv4
    hint 10.0.0.1, although the two families differ. *)
Example any6_survives_local4 :
  resolveAddrList noIP noItoa (lookupYields [SRT (Some any6)])
                  "dial" "srt" "[::]:9000" (Some (SRT (Some local4)))
  = Ret ([SRT (Some any6)], None).
Proof. reflexivity. Qed.

Example any6_not_family_of_local4 :
  isWildcard (Some local4) = false
  /\ isWildcard (Some any6) = true
  /\ matchAddrFamily any6 (IP local4) = false.
Proof. repeat split; reflexivity. Qed.

(** C3 as worded: "endpoints whose family does not match the hint's family
    are dropped".  It fails for a wildcard candidate: dialing [::]:9000 from
    10.0.0.1 keeps the single candidate and succeeds. *)
Lemma wildcard_survives_family_filter :
  ~ (forall (IP_String : ip.IP -> string) (itoa : Z -> string)
            (r : Resolver) (network addr : string) (h : SRTAddr)
            (cands l : addrList),
        isWildcard (Some h) = false ->
        internetAddrList r network addr = (cands, None) ->
        resolveAddrList IP_String itoa r "dial" network addr
                        (Some (SRT (Some h))) = Ret (l, None) ->
        forall a', In (SRT (Some a')) cands ->
                   matchAddrFamily a' (IP h) = false ->
                   ~ In (SRT (Some a')) l).
Proof.
  intros H.
  apply (H noIP noItoa (lookupYields [SRT (Some any6)]) "srt"%string
           "[::]:9000"%string local4 [SRT (Some any6)] [SRT (Some any6)]
           eq_refl eq_refl any6_survives_local4 any6);
    [left; reflexivity | reflexivity | left; reflexivity].
Qed.

Lemma resolveAddrList_validation_witness :
  resolveAddrList noIP noItoa (lookupYields [SRT (Some peer4)])
                  "dial" "tcp" "" None
  = Ret ([], Some (UnknownNetworkError "tcp"))
  /\ resolveAddrList noIP noItoa (lookupYields [SRT (Some peer4)])
                     "dial" "srt4" "" None
     = Ret ([], Some errMissingAddress).
Proof.
  split.
  - apply (resolveAddrList_validation noIP noItoa); discriminate.
  - apply (resolveAddrList_validation noIP noItoa);
      [right; left; reflexivity | reflexivity | reflexivity].
Defined.

Lemma lookupYields_nonempty (a : Addr) (l : addrList) :
  lookupNonEmpty (lookupYields (a :: l)).
Proof.
  intros network addr l' H. cbn in H. inversion H. discriminate.
Defined.

Lemma resolveAddrList_nonempty_witness :
  lookupNonEmpty (lookupYields [SRT (Some peer4)])
  /\ resolveAddrList noIP noItoa (lookupYields [SRT (Some peer4)])
                     "listen" "srt" ":9000" None
     = Ret ([SRT (Some peer4)], None)
  /\ [SRT (Some peer4)] <> [].
Proof.
  split; [apply lookupYields_nonempty|].
  split; [reflexivity|].
  apply (resolveAddrList_nonempty noIP noItoa
           (lookupYields [SRT (Some peer4)]) "listen" "srt" ":9000" None
           [SRT (Some peer4)] (lookupYields_nonempty _ _) eq_refl).
Defined.

Lemma sampleCands_srt :
  Forall (fun a => Network a = "srt"%string) sampleCands.
Proof. repeat constructor. Defined.

Lemma resolveAddrList_hint_filter_witness :
  resolveAddrList noIP noItoa (lookupYields sampleCands) "dial" "srt"
                  "example.net:9000" (Some (SRT (Some local4)))
  = Ret ([SRT (Some peer4); SRT (Some any6)], None)
  /\ resolveAddrList noIP noItoa (lookupYields sampleCands) "dial" "srt"
                     "example.net:9000" (Some (Foreign "tcp" "10.0.0.1:0"))
     = Ret ([], Some (AddrError mismatchedText "10.0.0.1:0"))
  /\ resolveAddrList noIP noItoa (lookupYields sampleCands) "dial" "srt"
                     "example.net:9000" (Some (SRT (Some any4)))
     = Ret (sampleCands, None).
Proof.
  destruct (resolveAddrList_hint_filter noIP noItoa
              (lookupYields sampleCands) "srt" "example.net:9000" sampleCands
              eq_refl ltac:(discriminate) eq_refl) as (H1 & H2 & H3).
  split; [|split].
  - destruct (H1 local4 eq_refl sampleCands_srt) as (_ & _ & Hk & _).
    apply Hk. discriminate.
  - apply (H2 (Foreign "tcp" "10.0.0.1:0")).
    + cbn. discriminate.
    + left. cbn. discriminate.
  - apply (H3 (Some any4)); [reflexivity | reflexivity | discriminate].
Defined.

Lemma resolveAddrList_keeps_wildcards_witness :
  exists l,
    resolveAddrList noIP noItoa (lookupYields sampleCands) "dial" "srt"
                    "example.net:9000" (Some (SRT (Some local4)))
    = Ret (l, None)
    /\ In (SRT (Some any6)) l.
Proof.
  destruct (resolveAddrList_keeps_wildcards noIP noItoa
              (lookupYields sampleCands) "srt" "example.net:9000" sampleCands
              local4 eq_refl ltac:(discriminate) eq_refl eq_refl
              sampleCands_srt) as (H1 & _).
  apply (H1 (Some any6)); [right; right; left; reflexivity | reflexivity].
Defined.

(** ** The serial dial *)

Lemma dialSingle_log (d : option time.Time) (dp : dialParam) (ra : Addr)
      (prov : SRTConnPtr * option error) (log : list call) :
  dialSingle d dp ra prov log =
  (fst (dialSingle d dp ra prov []), log ++ snd (dialSingle d dp ra prov [])).
Proof.
  unfold dialSingle. destruct ra as [p|n s].
  - destruct prov as [c [e|]]; reflexivity.
  - cbn. now rewrite app_nil_r.
Qed.

(** [dialSingle] calls the provider for an SRT candidate and for no other. *)
Lemma dialSingle_calls (d : option time.Time) (dp : dialParam) (ra : Addr)
      (prov : SRTConnPtr * option error) :
  map calledAddr (snd (dialSingle d dp ra prov [])) = filter isEndpoint [ra].
Proof.
  unfold dialSingle. destruct ra as [p|n s]; [|reflexivity].
  destruct prov as [c [e|]]; reflexivity.
Qed.

(** [dialSingle] returns a connection or an error, never both or neither. *)
Lemma dialSingle_shape (d : option time.Time) (dp : dialParam) (ra : Addr)
      (prov : SRTConnPtr * option error) (log : list call) :
  (exists c, fst (dialSingle d dp ra prov log) = (Some c, None))
  \/ (exists e, fst (dialSingle d dp ra prov log) = (None, Some e)).
Proof.
  unfold dialSingle. destruct ra as [p|n s].
  - destruct prov as [c [e|]]; cbn; eauto.
  - cbn; eauto.
Qed.

Section SerialFacts.

Variable ctx : Context.
Variable dp : dialParam.
Variable n : Z.
Variable env : nat -> round.

Local Abbreviation loop := (dialSerialLoop ctx dp n env).
Local Abbreviation attemptAt := (attemptOf ctx dp n env).
Local Abbreviation callsAt := (callsOf ctx dp n env).

(** One round of the loop, by what the round observes. *)
Lemma loop_round (i : nat) (ra : Addr) (rest : addrList)
      (firstErr : option error) (log : list call) :
  loop i (ra :: rest) firstErr log =
  match ctxDone (env i) with
  | Some ce => Ret ((None, Some (cancelled dp ra ce)), log)
  | None =>
      match attemptAt i ra with
      | Panic => Panic
      | Ret (Exhausted e) => Ret (afterLoop dp (keepFirst firstErr e), log)
      | Ret (Failed e) =>
          loop (S i) rest (keepFirst firstErr e) (log ++ callsAt i ra)
      | Ret (Connected c) => Ret ((c, None), log ++ callsAt i ra)
      end
  end.
Proof.
  cbn [dialSerialLoop]. unfold attemptOf, callsOf, cancelled.
  destruct (ctxDone (env i)); [reflexivity|].
  destruct (partialDeadline (timeNow (env i)) (Deadline_of ctx)
                            (n - Z.of_nat i)) as [[pd [err|]]|];
    try reflexivity.
  fold (dialCtxOf ctx pd).
  rewrite (dialSingle_log (dialCtxOf ctx pd) dp ra (dialSRT (env i)) log).
  destruct (fst (dialSingle (dialCtxOf ctx pd) dp ra (dialSRT (env i)) []))
    as [c [e|]]; reflexivity.
Qed.

Lemma callsAt_addr (i : nat) (ra : Addr) (a : attempt) :
  attemptAt i ra = Ret a ->
  map calledAddr (callsAt i ra) =
  match a with Exhausted _ => [] | _ => filter isEndpoint [ra] end.
Proof.
  unfold attemptOf, callsOf.
  destruct (partialDeadline (timeNow (env i)) (Deadline_of ctx)
                            (n - Z.of_nat i)) as [[pd [err|]]|];
    [| |discriminate].
  - intros H; inversion H; reflexivity.
  - rewrite dialSingle_calls.
    destruct (fst (dialSingle (dialCtxOf ctx pd) dp ra (dialSRT (env i)) []))
      as [c [e|]]; intros H; inversion H; reflexivity.
Qed.

(** A connecting round yields a non-nil [net.Conn]. *)
Lemma attempt_connected (i : nat) (ra : Addr) (c : option Conn) :
  attemptAt i ra = Ret (Connected c) -> exists c', c = Some c'.
Proof.
  unfold attemptOf.
  destruct (partialDeadline (timeNow (env i)) (Deadline_of ctx)
                            (n - Z.of_nat i)) as [[pd [err|]]|];
    try discriminate.
  destruct (dialSingle_shape (dialCtxOf ctx pd) dp ra (dialSRT (env i)) [])
    as [[c' E]|[e E]]; rewrite E; intros H; inversion H; eauto.
Qed.

(** The loop never panics when [n] is the number of candidates. *)
Lemma loop_returns (ras : addrList) :
  forall i firstErr log,
    n = Z.of_nat i + Z.of_nat (length ras) ->
    exists r, loop i ras firstErr log = Ret r.
Proof.
  induction ras as [|ra rest IH]; intros i firstErr log Hn.
  - cbn. eauto.
  - rewrite loop_round. destruct (ctxDone (env i)); [eauto|].
    unfold attemptOf.
    destruct (partialDeadline_returns (timeNow (env i)) (Deadline_of ctx)
                                      (n - Z.of_nat i)) as [[pd err] E].
    { cbn [length] in Hn. lia. }
    rewrite E. destruct err as [err|]; [eauto|].
    destruct (fst (dialSingle (dialCtxOf ctx pd) dp ra (dialSRT (env i)) []))
      as [c [e|]]; [|eauto].
    apply IH. cbn [length] in Hn. lia.
Qed.

(** Whatever the loop returns is a connection with no error, or no
    connection with an error (given that no error is pending only with no
    connection). *)
Lemma loop_shape (ras : addrList) :
  forall i firstErr log c err log',
    loop i ras firstErr log = Ret ((c, err), log') ->
    (exists c', c = Some c' /\ err = None)
    \/ (exists e, c = None /\ err = Some e).
Proof.
  induction ras as [|ra rest IH]; intros i firstErr log c err log' H.
  - cbn in H. inversion H as [H']. unfold afterLoop in H'.
    destruct firstErr; inversion H'; eauto.
  - rewrite loop_round in H. destruct (ctxDone (env i)).
    + inversion H; eauto.
    + destruct (attemptAt i ra) as [[e|e|c0]|] eqn:E; [| | |discriminate].
      * inversion H as [H']. unfold afterLoop, keepFirst in H'.
        destruct firstErr; inversion H'; eauto.
      * eapply IH; eassumption.
      * inversion H; subst. apply attempt_connected in E.
        destruct E as [c' ->]. eauto.
Qed.

(** Once an error is remembered, a run of failing rounds returns it. *)
Lemma loop_keeps_first (ras : addrList) (e0 : error) :
  forall i log,
    (forall j a, nth_error ras j = Some a ->
                 ctxDone (env (i + j)) = None
                 /\ exists e, attemptAt (i + j)%nat a = Ret (Failed e)
                              \/ attemptAt (i + j)%nat a = Ret (Exhausted e)) ->
    exists log', loop i ras (Some e0) log = Ret ((None, Some e0), log').
Proof.
  induction ras as [|ra rest IH]; intros i log Hall.
  - cbn. eauto.
  - rewrite loop_round.
    destruct (Hall 0%nat ra eq_refl) as (Hc & e & [E|E]);
      rewrite Nat.add_0_r in Hc, E; rewrite Hc, E; cbn [keepFirst].
    + apply IH. intros j a Hj.
      replace (S i + j)%nat with (i + S j)%nat by lia.
      apply Hall. exact Hj.
    + cbn. eauto.
Qed.

End SerialFacts.

Section SerialRuns.

Variable ctx : Context.
Variable dp : dialParam.
Variable n : Z.
Variable env : nat -> round.

Local Abbreviation loop := (dialSerialLoop ctx dp n env).
Local Abbreviation attemptAt := (attemptOf ctx dp n env).

(** A run of rounds that fail without exhausting the deadline is passed
    over, one provider call per SRT candidate. *)
Lemma loop_skip_failed (pre suf : addrList) :
  forall i firstErr log,
    (forall j b, nth_error pre j = Some b ->
                 ctxDone (env (i + j)) = None
                 /\ exists e, attemptAt (i + j)%nat b = Ret (Failed e)) ->
    exists firstErr' log',
      loop i (pre ++ suf) firstErr log =
      loop (i + length pre) suf firstErr' log'
      /\ map calledAddr log' = map calledAddr log ++ filter isEndpoint pre.
Proof.
  induction pre as [|b pre IH]; intros i firstErr log Hall.
  - exists firstErr, log. cbn [app length filter].
    rewrite Nat.add_0_r, app_nil_r. auto.
  - cbn [app]. rewrite loop_round.
    destruct (Hall 0%nat b eq_refl) as (Hc & e & E).
    rewrite Nat.add_0_r in Hc, E. rewrite Hc, E.
    destruct (IH (S i) (keepFirst firstErr e)
                 (log ++ callsOf ctx dp n env i b)) as (fe' & log' & Hl & Hm).
    { intros j a Hj. replace (S i + j)%nat with (i + S j)%nat by lia.
      apply Hall. exact Hj. }
    exists fe', log'. split.
    + rewrite Hl. cbn [length]. now replace (i + S (length pre))%nat
        with (S i + length pre)%nat by lia.
    + rewrite Hm, map_app, (callsAt_addr ctx dp n env i b _ E).
      rewrite <- app_assoc. f_equal.
      change (b :: pre) with ([b] ++ pre). now rewrite filter_app.
Qed.

End SerialRuns.

Lemma firstn_split {A : Type} (l1 l2 : list A) (a : A) :
  firstn (S (length l1)) (l1 ++ a :: l2) = l1 ++ [a].
Proof.
  induction l1 as [|x l1 IH]; [reflexivity|].
  cbn [length app]. rewrite firstn_cons. now rewrite IH.
Qed.

(** C2, as amended.  Over a non-empty candidate list on which every
    attempt fails (the allocator running out of time partway counts as a
    failing attempt and ends the loop), and provided the context is never
    found done at a candidate boundary, [dialSerial] returns no connection
    and the error produced for the first candidate, whatever the later
    errors are.  The first success is returned at once, and the provider
    is called for no candidate after it.  When the context is found done
    before candidate [k], the earlier attempts having failed, the wrapped
    cancellation error naming candidate [k] is returned instead. *)
Theorem dialSerial_first_error
        (ctx : Context) (dp : dialParam) (ra : Addr) (rest : addrList)
        (env : nat -> round) :
  let ras := ra :: rest in
  let n := Z.of_nat (length ras) in
  ((forall i, (i < length ras)%nat -> ctxDone (env i) = None) ->
   (forall i a, nth_error ras i = Some a ->
                exists e, attemptOf ctx dp n env i a = Ret (Failed e)
                          \/ attemptOf ctx dp n env i a = Ret (Exhausted e)) ->
   exists e0 log,
     (attemptOf ctx dp n env 0 ra = Ret (Failed e0)
      \/ attemptOf ctx dp n env 0 ra = Ret (Exhausted e0))
     /\ dialSerial ctx dp ras env = Ret ((None, Some e0), log))
  /\ (forall k a c,
         nth_error ras k = Some a ->
         (forall i, (i <= k)%nat -> ctxDone (env i) = None) ->
         (forall i b, (i < k)%nat -> nth_error ras i = Some b ->
                      exists e, attemptOf ctx dp n env i b = Ret (Failed e)) ->
         attemptOf ctx dp n env k a = Ret (Connected c) ->
         exists log,
           dialSerial ctx dp ras env = Ret ((c, None), log)
           /\ map calledAddr log = filter isEndpoint (firstn (S k) ras))
  /\ (forall k a ce,
         nth_error ras k = Some a ->
         (forall i, (i < k)%nat -> ctxDone (env i) = None) ->
         (forall i b, (i < k)%nat -> nth_error ras i = Some b ->
                      exists e, attemptOf ctx dp n env i b = Ret (Failed e)) ->
         ctxDone (env k) = Some ce ->
         exists log,
           dialSerial ctx dp ras env = Ret ((None, Some (cancelled dp a ce)), log)).
Proof.
  intros ras n. split; [|split].
  - intros Hlive Hfail. unfold dialSerial. fold n. subst ras.
    rewrite loop_round. rewrite (Hlive 0%nat) by (cbn; lia).
    destruct (Hfail 0%nat ra eq_refl) as (e0 & [E|E]); rewrite E.
    + cbn [keepFirst app].
      destruct (loop_keeps_first ctx dp n env rest e0 1
                                 (callsOf ctx dp n env 0 ra)) as [log' Hl].
      { intros j a Hj. split.
        - apply Hlive. apply nth_error_Some. cbn. now rewrite Hj.
        - apply (Hfail (S j) a). exact Hj. }
      exists e0, log'. auto.
    + exists e0, []. auto.
  - intros k a c Hk Hlive Hfail Hconn.
    destruct (nth_error_split ras k Hk) as (l1 & l2 & Hras & Hlen).
    unfold dialSerial. fold n. rewrite Hras.
    destruct (loop_skip_failed ctx dp n env l1 (a :: l2) 0 None [])
      as (fe' & log' & Hl & Hm).
    { intros j b Hj. cbn [Nat.add].
      assert (j < k)%nat by (subst k; apply nth_error_Some; now rewrite Hj).
      split; [apply Hlive; lia|].
      apply Hfail; [assumption|].
      rewrite Hras, nth_error_app1 by lia. exact Hj. }
    rewrite Hl, Hlen. cbn [Nat.add]. rewrite loop_round.
    rewrite (Hlive k) by lia. rewrite Hconn.
    eexists. split; [reflexivity|].
    rewrite map_app, Hm, (callsAt_addr ctx dp n env k a _ Hconn).
    cbn [map app]. rewrite <- Hlen, firstn_split. now rewrite filter_app.
  - intros k a ce Hk Hlive Hfail Hdone.
    destruct (nth_error_split ras k Hk) as (l1 & l2 & Hras & Hlen).
    unfold dialSerial. fold n. rewrite Hras.
    destruct (loop_skip_failed ctx dp n env l1 (a :: l2) 0 None [])
      as (fe' & log' & Hl & Hm).
    { intros j b Hj. cbn [Nat.add].
      assert (j < k)%nat by (subst k; apply nth_error_Some; now rewrite Hj).
      split; [apply Hlive; lia|].
      apply Hfail; [assumption|].
      rewrite Hras, nth_error_app1 by lia. exact Hj. }
    rewrite Hl, Hlen. cbn [Nat.add]. rewrite loop_round, Hdone. eauto.
Qed.

(** [dialSerial] always returns, and with a connection or an error, never
    both and never neither. *)
Lemma dialSerial_returns (ctx : Context) (dp : dialParam) (ras : addrList)
      (env : nat -> round) :
  exists c err log,
    dialSerial ctx dp ras env = Ret ((c, err), log)
    /\ ((exists c', c = Some c' /\ err = None)
        \/ (exists e, c = None /\ err = Some e)).
Proof.
  unfold dialSerial.
  destruct (loop_returns ctx dp (Z.of_nat (length ras)) env ras 0 None [])
    as [[[c err] log] H]; [cbn; lia|].
  exists c, err, log. split; [exact H|].
  eapply loop_shape. exact H.
Qed.

(** C10.  On an empty candidate list [dialSerial] returns, whatever the
    state of the context, a nil connection with an [OpError] that wraps the
    MissingAddress error; and no call of [dialSerial] returns a nil
    connection together with a nil error. *)
Theorem dialSerial_empty (ctx : Context) (dp : dialParam) (env : nat -> round) :
  dialSerial ctx dp [] env =
  Ret ((None, Some (OpError "dial" (network dp) None None errMissingAddress)), [])
  /\ (forall ras env' c err log,
         dialSerial ctx dp ras env' = Ret ((c, err), log) ->
         ~ (c = None /\ err = None)).
Proof.
  split; [reflexivity|].
  intros ras env' c err log H [Hc He].
  apply loop_shape in H. destruct H as [(c' & -> & _)|(e & _ & ->)];
    discriminate.
Qed.

(** *** The serial dial on samples *)

Example refused_then_cancelled :
  dialSerial background plainParam [SRT (Some peer4); SRT (Some peer6)]
             refusedThenCancelled
  = Ret ((None,
          Some (OpError "dial" "srt" None (Some (SRT (Some peer6))) errCanceled)),
         [mkCall None "srt" None (Some peer4)]).
Proof. reflexivity. Qed.

Example refused_first :
  attemptOf background plainParam 2 refusedThenCancelled 0 (SRT (Some peer4))
  = Ret (Failed (OpError "dial" "srt" None
                         (Some (SRT (Some peer4))) (Errno 111))).
Proof. reflexivity. Qed.

(** C2 as worded: whenever every attempt fails, the error of the first
    candidate is returned.  It fails when the context is cancelled between
    two attempts: 10.0.0.2:9000 is refused, the context is then found
    cancelled, and the error returned is the cancellation error that names
    the second candidate. *)
Lemma cancellation_overrides_first_error :
  ~ (forall (ctx : Context) (dp : dialParam) (ra : Addr) (rest : addrList)
            (env : nat -> round),
        let ras := ra :: rest in
        let n := Z.of_nat (length ras) in
        (forall i a, nth_error ras i = Some a ->
                     exists e, attemptOf ctx dp n env i a = Ret (Failed e)
                               \/ attemptOf ctx dp n env i a = Ret (Exhausted e)) ->
        exists e0 log,
          (attemptOf ctx dp n env 0 ra = Ret (Failed e0)
           \/ attemptOf ctx dp n env 0 ra = Ret (Exhausted e0))
          /\ dialSerial ctx dp ras env = Ret ((None, Some e0), log)).
Proof.
  intros H.
  destruct (H background plainParam (SRT (Some peer4)) [SRT (Some peer6)]
              refusedThenCancelled) as (e0 & log & Hfirst & Hret).
  - intros i a Hi. destruct i as [|[|i]]; cbn in Hi.
    + inversion Hi; subst. eexists. left. reflexivity.
    + inversion Hi; subst. eexists. left. reflexivity.
    + destruct i; discriminate.
  - cbn [length Z.of_nat Pos.of_succ_nat Pos.succ] in Hfirst, Hret.
    rewrite refused_then_cancelled in Hret.
    rewrite refused_first in Hfirst.
    destruct Hfirst as [Hf|Hf]; [|discriminate].
    inversion Hf; subst. discriminate.
Qed.

Lemma dialSerial_first_error_witness :
  dialSerial background plainParam [SRT (Some peer4); SRT (Some peer6)]
             refusedThenConnected
  = Ret ((Some (ConnSRT (Some 5)), None),
         [mkCall None "srt" None (Some peer4);
          mkCall None "srt" None (Some peer6)])
  /\ exists e0 log,
      dialSerial background plainParam [SRT (Some peer4); SRT (Some peer6)]
                 (fun _ => refusedRound)
      = Ret ((None, Some e0), log)
      /\ e0 = OpError "dial" "srt" None
                      (Some (SRT (Some peer4))) (Errno 111).
Proof.
  split; [reflexivity|].
  destruct (dialSerial_first_error background plainParam (SRT (Some peer4))
              [SRT (Some peer6)] (fun _ => refusedRound)) as (H & _).
  destruct H as (e0 & log & Hfirst & Hret).
  - intros i Hi. reflexivity.
  - intros i a Hi. destruct i as [|[|i]]; cbn in Hi.
    + inversion Hi; subst. eexists. left. reflexivity.
    + inversion Hi; subst. eexists. left. reflexivity.
    + destruct i; discriminate.
  - exists e0, log. split; [exact Hret|].
    destruct Hfirst as [Hf|Hf]; cbn in Hf; inversion Hf; reflexivity.
Defined.

Lemma dialSerial_empty_witness :
  dialSerial background plainParam [SRT (Some peer4)] (fun _ => refusedRound)
  = Ret ((None, Some (OpError "dial" "srt" None
                              (Some (SRT (Some peer4))) (Errno 111))),
         [mkCall None "srt" None (Some peer4)])
  /\ ~ (@None Conn = None
        /\ Some (OpError "dial" "srt" None
                         (Some (SRT (Some peer4))) (Errno 111)) = None).
Proof.
  split; [reflexivity|].
  destruct (dialSerial_empty background plainParam (fun _ => refusedRound))
    as [_ H].
  apply (H [SRT (Some peer4)] (fun _ => refusedRound) None _ _ eq_refl).
Defined.

(** ** The parallel race: its shapes are invariant *)

Lemma dialSerial_shaped (ctx : Context) (dp : dialParam) (ras : addrList)
      (env : nat -> round) c err log :
  dialSerial ctx dp ras env = Ret ((c, err), log) -> shaped c err.
Proof. unfold dialSerial. intros H. eapply loop_shape. exact H. Qed.

Lemma notAfter_later (t0 t : time.Time) (d : Z) :
  notAfter t0 t -> 0 <= d -> notAfter t0 (time.Add t d).
Proof. unfold notAfter, time.Add. cbn. lia. Qed.

Lemma timerOk_later (delay : Z) (t0 t : time.Time) (d : Z) pres tm :
  timerOk delay t0 t pres tm -> 0 <= d ->
  timerOk delay t0 (time.Add t d) pres tm.
Proof.
  unfold timerOk, time.Add. destruct tm; cbn; [tauto| |tauto].
  intros [H|H] Hd; [left; lia | right; exact H].
Qed.

Ltac unfold_race :=
  cbv [setClock setPc setTimer setRacers spawn closeConn setStage leave
       clock pc primaryRes fallbackRes fallbackTimer returned racers closed];
  cbn [nth_error setNth app isPrimary startedAt standing].

Section RaceFacts.

Variable ctx : Context.
Variable dp : dialParam.
Variables primaries fallbacks : addrList.

Local Abbreviation step := (step ctx dp primaries fallbacks).
Local Abbreviation delay := (fallbackDelay (dialer dp)).

Lemma tick_Inv (d : Z) (s s' : race) :
  Inv delay s -> step (Tick d) s = Some s' -> Inv delay s'.
Proof.
  intros HI Hs. cbn in Hs.
  destruct (Z.leb_spec 0 d) as [Hd|Hd]; [|discriminate].
  inversion Hs; subst s'; clear Hs.
  destruct HI; unfold_race; constructor;
    auto using notAfter_later, timerOk_later.
Qed.

Lemma runSerial_Inv env (s s' : race) :
  Inv delay s -> step (RunSerial env) s = Some s' -> Inv delay s'.
Proof.
  intros HI Hs. cbn in Hs.
  destruct HI; cbn in Hs; try discriminate.
  destruct fallbacks; [|discriminate].
  destruct (dialSerial ctx dp primaries env) as [[[c err] log]|] eqn:E;
    [|discriminate].
  inversion Hs; subst s'. unfold_race. constructor.
  eapply dialSerial_shaped; eassumption.
Qed.

Lemma goPrimary_Inv (s s' : race) :
  Inv delay s -> step GoPrimary s = Some s' -> Inv delay s'.
Proof.
  intros HI Hs. cbn in Hs.
  destruct HI; cbn in Hs; try discriminate.
  destruct fallbacks; [discriminate|].
  inversion Hs; subst s'. unfold_race. constructor; [unfold notAfter; lia | exact I].
Qed.

Lemma newTimer_Inv (s s' : race) :
  Inv delay s -> step NewTimer s = Some s' -> Inv delay s'.
Proof.
  intros HI Hs. cbn in Hs.
  destruct HI; cbn in Hs; try discriminate.
  inversion Hs; subst s'. unfold_race.
  match goal with H : early ?st |- _ => destruct st; cbn in H; try contradiction end.
  - constructor; cbn; auto. left. unfold notAfter in *. lia.
  - constructor; cbn; auto. left. unfold notAfter in *. lia.
Qed.

Lemma fire_Inv (s s' : race) :
  Inv delay s -> step Fire s = Some s' -> Inv delay s'.
Proof.
  intros HI Hs. cbn in Hs.
  destruct HI; cbn in Hs; try discriminate.
  - destruct tm as [w| |]; try discriminate.
    unfold time.Before in Hs.
    destruct (Z.ltb_spec (time.sinceZero t) (time.sinceZero w)); [discriminate|].
    inversion Hs; subst s'. unfold_race. constructor; auto.
    match goal with H : timerOk _ _ _ _ _ |- _ => cbn in H |- *; destruct H; [left; lia | right; assumption] end.
  - destruct tm as [w| |]; try discriminate.
    destruct (time.Before t w); [discriminate|].
    inversion Hs; subst s'. unfold_race. constructor; auto.
  - destruct tm as [w| |]; try discriminate.
    destruct (time.Before t w); [discriminate|].
    inversion Hs; subst s'. unfold_race. constructor; auto.
  - destruct tm as [w| |]; try discriminate.
    destruct (time.Before t w); [discriminate|].
    inversion Hs; subst s'. unfold_race. constructor; auto.
  - destruct tm as [w| |]; try discriminate.
    destruct (time.Before t w); [discriminate|].
    inversion Hs; subst s'. unfold_race. constructor; auto.
Qed.

Lemma recvTimer_Inv (s s' : race) :
  Inv delay s -> step RecvTimer s = Some s' -> Inv delay s'.
Proof.
  intros HI Hs. cbn in Hs.
  destruct HI; cbn in Hs; try discriminate.
  destruct tm as [w| |]; try discriminate.
  inversion Hs; subst s'. unfold_race.
  apply InvBoth; cbn; auto.
  - unfold notAfter; lia.
  - intros [_ Hf]; discriminate.
Qed.

Lemma serialReturns_Inv k env (s s' : race) :
  Inv delay s -> step (SerialReturns k env) s = Some s' -> Inv delay s'.
Proof.
  intros HI Hs. cbn -[dialSerial] in Hs.
  destruct HI; destruct k as [|[|k]]; cbn -[dialSerial] in Hs;
    try discriminate; try (destruct k; discriminate).
  all: repeat match type of Hs with
         | context [match ?st with Dialing => _ | _ => _ end] =>
             destruct st; try discriminate
         end.
  all: match type of Hs with
       | context [dialSerial ctx dp ?ras ?e] =>
           destruct (dialSerial ctx dp ras e) as [[[c err] log]|] eqn:E;
           [apply dialSerial_shaped in E | discriminate]
       end.
  all: inversion Hs; subst s'; unfold_race.
  all: constructor; cbn; auto.
Qed.

Ltac shaped_cases H :=
  destruct H as [(?c' & -> & ->)|(?e & -> & ->)].

Lemma recvResult_Inv k (s s' : race) :
  Inv delay s -> step (RecvResult k) s = Some s' -> Inv delay s'.
Proof.
  intros HI Hs. cbn in Hs.
  destruct HI; destruct k as [|[|k]]; cbn in Hs;
    try discriminate; try (destruct k; discriminate).
  - (* the primary alone *)
    destruct st as [|c err|c err|c err]; try discriminate.
    inversion Hs; subst s'; clear Hs. cbn in H0, H1. subst pres.
    shaped_cases H0; cbv [onResult rError]; unfold_race.
    + constructor; auto.
    + cbv [recordResult primary]; unfold_race. cbn.
      destruct tm as [w| |]; cbn in H2 |- *; try contradiction;
        unfold_race; constructor; cbn; eauto.
  - (* both racers, the primary reports *)
    destruct pst as [|c err|c err|c err]; try discriminate.
    inversion Hs; subst s'; clear Hs. cbn in H1, H3. subst pres.
    shaped_cases H1; cbv [onResult rError]; unfold_race.
    + constructor; auto.
      * destruct fst; cbn in *; auto. contradiction.
      * destruct fst; cbn; auto. contradiction.
    + cbv [recordResult primary]; unfold_race. cbn.
      destruct fst as [|c err|c err|c err]; cbn in H2, H4; try contradiction;
        subst fres; cbn; unfold_race.
      * constructor; cbn; eauto. intros [_ Hf]; discriminate.
      * constructor; cbn; eauto. intros [_ Hf]; discriminate.
      * destruct H2 as (-> & ef & ->). constructor; auto.
  - (* both racers, the fallback reports *)
    destruct fst as [|c err|c err|c err]; try discriminate.
    inversion Hs; subst s'; clear Hs. cbn in H2, H4. subst fres.
    shaped_cases H2; cbv [onResult rError]; unfold_race.
    + constructor; auto.
      * destruct pst; cbn in *; auto. contradiction.
      * destruct pst; cbn; auto. contradiction.
    + cbv [recordResult primary]; unfold_race. cbn.
      destruct pst as [|c err|c err|c err]; cbn in H1, H3; try contradiction;
        subst pres; cbn; unfold_race.
      * constructor; cbn; eauto. intros [Hf _]; discriminate.
      * constructor; cbn; eauto. intros [Hf _]; discriminate.
      * destruct H1 as (-> & ep & ->). cbn. constructor; auto.
Qed.

Lemma seeReturned_Inv k (s s' : race) :
  Inv delay s -> step (SeeReturned k) s = Some s' -> Inv delay s'.
Proof.
  intros HI Hs. cbn in Hs.
  destruct HI; destruct k as [|[|k]]; cbn in Hs;
    try discriminate; try (destruct k; discriminate).
  - destruct fst as [|c err|c err|c err]; try discriminate.
    inversion Hs; subst s'; clear Hs. cbn in H1.
    destruct c as [c|]; unfold_race; constructor; cbn; auto.
    apply in_or_app. right. left. reflexivity.
  - destruct pst as [|c err|c err|c err]; try discriminate.
    inversion Hs; subst s'; clear Hs. cbn in H1.
    destruct c as [c|]; unfold_race; constructor; cbn; auto.
    apply in_or_app. right. left. reflexivity.
Qed.

Lemma step_Inv (ev : event) (s s' : race) :
  Inv delay s -> step ev s = Some s' -> Inv delay s'.
Proof.
  intros HI Hs. destruct ev.
  - eapply tick_Inv; eassumption.
  - eapply runSerial_Inv; eassumption.
  - eapply goPrimary_Inv; eassumption.
  - eapply newTimer_Inv; eassumption.
  - eapply fire_Inv; eassumption.
  - eapply recvTimer_Inv; eassumption.
  - eapply serialReturns_Inv; eassumption.
  - eapply recvResult_Inv; eassumption.
  - eapply seeReturned_Inv; eassumption.
Qed.

Lemma run_Inv (evs : list event) :
  forall s s',
    Inv delay s -> run ctx dp primaries fallbacks evs s = Some s' ->
    Inv delay s'.
Proof.
  induction evs as [|ev evs IH]; intros s s' HI Hr; cbn in Hr.
  - inversion Hr; subst; exact HI.
  - destruct (step ev s) as [s1|] eqn:E; [|discriminate].
    eapply IH; [eapply step_Inv; eassumption | exact Hr].
Qed.

(** Every state a race reaches has one of the shapes of [Inv]. *)
Lemma reachable_Inv (s : race) :
  reachable ctx dp primaries fallbacks s -> Inv delay s.
Proof.
  intros (t0 & evs & Hr). eapply run_Inv; [apply InvEntry | exact Hr].
Qed.

End RaceFacts.

Section RaceClaims.

Variable ctx : Context.
Variable dp : dialParam.
Variables primaries fallbacks : addrList.

Local Abbreviation step := (step ctx dp primaries fallbacks).
Local Abbreviation run := (run ctx dp primaries fallbacks).
Local Abbreviation reachable := (reachable ctx dp primaries fallbacks).
Local Abbreviation delay := (fallbackDelay (dialer dp)).

(** C4.  Whatever results the loop of [dialParallel] has consumed so far:
    a result that carries no error is received and returned to the caller at
    once; a result that carries an error ends the race exactly when the
    other branch has reported an error too, and then the error returned is
    the primary's; so in every state in which both branches have reported
    errors, the call has returned the primary's error and dropped the
    fallback's. *)
Theorem dialParallel_results (s : race) :
  reachable s ->
  (forall k r c,
      pc s = Selecting ->
      nth_error (racers s) k = Some r -> standing r = Offering c None ->
      exists s', step (RecvResult k) s = Some s' /\ pc s' = Returned c None)
  /\ (forall k r c e s',
         nth_error (racers s) k = Some r ->
         standing r = Offering c (Some e) ->
         step (RecvResult k) s = Some s' ->
         (forall r' c' e',
             In r' (racers s) -> isPrimary r' = negb (isPrimary r) ->
             standing r' = Delivered c' (Some e') ->
             pc s' = Returned None (Some (if isPrimary r then e else e')))
         /\ ((forall r' c' e',
                 In r' (racers s) -> standing r' <> Delivered c' e') ->
             pc s' = Selecting))
  /\ (forall rp rf cp ep cf ef,
         In rp (racers s) -> isPrimary rp = true ->
         standing rp = Delivered cp (Some ep) ->
         In rf (racers s) -> isPrimary rf = false ->
         standing rf = Delivered cf (Some ef) ->
         pc s = Returned None (Some ep)).
Proof.
  intros Hr. apply reachable_Inv in Hr. split; [|split].
  - intros k r c Hpc Hk Hst. cbn. rewrite Hpc, Hk, Hst.
    eexists. split; [reflexivity|]. reflexivity.
  - intros k r c e s' Hk Hst Hs.
    destruct Hr; destruct k as [|[|k]]; cbn in Hs, Hk;
      try discriminate; try (destruct k; discriminate);
      inversion Hk; subst r; cbn in Hst; subst; cbn in Hs;
      inversion Hs; subst s'; clear Hs Hk.
    + split.
      * intros r' c' e' [<-|[]] Hp. discriminate.
      * intros _. cbv [onResult rError recordResult primary]. unfold_race. cbn.
        destruct tm; reflexivity.
    + split.
      * intros r' c' e' [<-|[<-|[]]] Hp Hd; cbn in Hp, Hd; [discriminate|].
        subst fst. cbn in H4. subst fres. reflexivity.
      * intros Hno. cbv [onResult rError recordResult primary]. unfold_race. cbn.
        destruct fst as [|c1 e1|c1 e1|c1 e1]; cbn in H4; try (subst fres; reflexivity).
        exfalso. apply (Hno _ c1 e1 (or_intror (or_introl eq_refl))). reflexivity.
    + split.
      * intros r' c' e' [<-|[<-|[]]] Hp Hd; cbn in Hp, Hd; [|discriminate].
        subst pst. cbn in H3. subst pres. reflexivity.
      * intros Hno. cbv [onResult rError recordResult primary]. unfold_race. cbn.
        destruct pst as [|c1 e1|c1 e1|c1 e1]; cbn in H3; try (subst pres; reflexivity).
        exfalso. apply (Hno _ c1 e1 (or_introl eq_refl)). reflexivity.
  - intros rp rf cp ep cf ef Hp Hpp Hps Hf Hfp Hfs.
    destruct Hr; cbn in Hp, Hf;
      repeat match goal with
        | H : _ \/ _ |- _ => destruct H
        | H : False |- _ => destruct H
        end; subst; cbn in *; try discriminate.
    + subst pst fst. cbn in H3, H4. subst pres fres.
      exfalso. apply H5. split; reflexivity.
    + inversion Hps; inversion Hfs; subst. reflexivity.
Qed.

(** C7.  In every state of a parallel race: the fallback racer is started
    only by the timer case of the loop, and when that happens either the
    fallback delay has elapsed since the primary was started or the primary
    has already reported a failure; nothing else starts a racer but the
    single [go] of the primary at the entry; when the primary reports a
    failure while it races alone, the fallback can be started in the same
    instant, with no time passing; and the primary comes first in the
    line-up, started no later than the fallback. *)
Theorem dialParallel_head_start (s : race) :
  reachable s ->
  (forall s',
      step RecvTimer s = Some s' ->
      exists p,
        racers s = [p] /\ isPrimary p = true
        /\ racers s' = [p; mkRacer false (clock s) Dialing]
        /\ (time.sinceZero (startedAt p) + delay <= time.sinceZero (clock s)
            \/ exists c e, standing p = Delivered c (Some e)))
  /\ (forall ev s',
         step ev s = Some s' ->
         (ev = GoPrimary /\ racers s = []
          /\ racers s' = [mkRacer true (clock s) Dialing])
         \/ (ev = RecvTimer
             /\ racers s' = racers s ++ [mkRacer false (clock s) Dialing])
         \/ map (fun r => (isPrimary r, startedAt r)) (racers s') =
            map (fun r => (isPrimary r, startedAt r)) (racers s))
  /\ (forall k p c e s',
         racers s = [p] ->
         nth_error (racers s) k = Some p ->
         standing p = Offering c (Some e) ->
         step (RecvResult k) s = Some s' ->
         clock s' = clock s
         /\ exists s'' p',
             (run [Fire; RecvTimer] s' = Some s''
              \/ run [RecvTimer] s' = Some s'')
             /\ racers s'' = [p'; mkRacer false (clock s) Dialing])
  /\ (racers s = []
      \/ (exists p, racers s = [p] /\ isPrimary p = true)
      \/ (exists p f,
             racers s = [p; f] /\ isPrimary p = true /\ isPrimary f = false
             /\ notAfter (startedAt p) (startedAt f))).
Proof.
  intros Hr. apply reachable_Inv in Hr. split; [|split; [|split]].
  - intros s' Hs. cbn in Hs.
    destruct Hr; cbn in Hs; try discriminate.
    destruct tm as [w| |]; try discriminate.
    inversion Hs; subst s'; clear Hs. unfold_race.
    eexists. repeat split. cbn in H2 |- *.
    destruct H2 as [H2|H2]; [left; exact H2|right].
    destruct st as [|c e|c e|c e]; cbn in H0, H1; subst pres;
      try discriminate; try contradiction.
    destruct H0 as (-> & e' & ->). eauto.
  - intros ev s' Hs.
    destruct ev; cbn -[dialSerial] in Hs.
    + destruct (0 <=? d); [|discriminate]. inversion Hs. right; right. reflexivity.
    + destruct (pc s), fallbacks, (dialSerial ctx dp primaries env) as [[[cc ee] ll]|];
        try discriminate. inversion Hs. right; right. reflexivity.
    + destruct Hr; cbn in Hs; try discriminate.
      destruct fallbacks; [discriminate|]. inversion Hs. left. auto.
    + destruct (pc s); try discriminate. inversion Hs. right; right. reflexivity.
    + destruct (fallbackTimer s); try discriminate.
      destruct (time.Before (clock s) when); [discriminate|].
      inversion Hs. right; right. reflexivity.
    + destruct (pc s), (fallbackTimer s); try discriminate.
      inversion Hs. right; left. auto.
    + right; right.
      destruct Hr; destruct k as [|[|k]]; cbn -[dialSerial] in Hs;
        try discriminate; try (destruct k; discriminate).
      all: repeat match type of Hs with
             | context [match ?st with Dialing => _ | _ => _ end] =>
                 destruct st; try discriminate
             end.
      all: match type of Hs with
           | context [dialSerial ctx dp ?ras ?e] =>
               destruct (dialSerial ctx dp ras e) as [[[c err] log]|];
               [|discriminate]
           end.
      all: inversion Hs; reflexivity.
    + right; right.
      destruct Hr; destruct k as [|[|k]]; cbn in Hs;
        try discriminate; try (destruct k; discriminate).
      all: repeat match type of Hs with
             | context [match ?st with Offering _ _ => _ | _ => _ end] =>
                 destruct st; try discriminate
             end.
      all: inversion Hs; subst s'; clear Hs.
      all: cbv [onResult rError recordResult primary]; unfold_race.
      all: repeat match goal with
             | |- context [match ?x with Some _ => _ | None => _ end] => destruct x
             | |- context [if ?x then _ else _] => destruct x
             | |- context [match ?x with Armed _ => _ | _ => _ end] => destruct x
             end; cbn; try reflexivity.
      all: match goal with |- context [timerStop ?x] => destruct x end;
        reflexivity.
    + right; right.
      destruct Hr; destruct k as [|[|k]]; cbn in Hs;
        try discriminate; try (destruct k; discriminate).
      all: repeat match type of Hs with
             | context [match ?st with Offering _ _ => _ | _ => _ end] =>
                 destruct st; try discriminate
             end.
      all: inversion Hs; subst s'; clear Hs.
      all: match goal with |- context [closeConn ?c _] => destruct c end;
        reflexivity.
  - intros k p c e s' Hl Hk Hst Hs.
    destruct Hr; cbn in Hl; try discriminate.
    inversion Hl; subst p; clear Hl. cbn in Hst. subst st.
    destruct k as [|k]; [|destruct k; discriminate].
    cbn in Hs. inversion Hs; subst s'; clear Hs.
    cbv [onResult rError recordResult primary]. unfold_race. cbn.
    destruct tm as [w| |]; cbn in H2; try contradiction; unfold_race.
    + split; [reflexivity|]. do 2 eexists. split.
      * left. cbn. unfold time.Before. cbn.
        replace (time.sinceZero t <? time.sinceZero t + 0) with false
          by (symmetry; apply Z.ltb_ge; lia).
        reflexivity.
      * reflexivity.
    + split; [reflexivity|]. do 2 eexists. split.
      * right. reflexivity.
      * reflexivity.
  - destruct Hr; cbn; eauto 10.
Qed.

(** Once the call has returned, the only thing that happens to a racer
    holding a connection is that it closes it. *)
Lemma holder_only_closes (s : race) :
  Inv delay s ->
  forall k r c e cr er ev s' r',
    pc s = Returned cr er ->
    nth_error (racers s) k = Some r ->
    standing r = Offering (Some c) e ->
    step ev s = Some s' ->
    nth_error (racers s') k = Some r' ->
    standing r' = Offering (Some c) e
    \/ (ev = SeeReturned k /\ standing r' = Abandoned (Some c) e
        /\ In c (closed s')).
Proof.
  intros HI k r c e cr er ev s' r' Hpc Hk Hst Hs Hk'.
  destruct HI; cbn in Hpc; try discriminate;
    destruct k as [|[|k]]; cbn in Hk; try discriminate;
    try (destruct k; discriminate);
    inversion Hk; subst r; cbn in Hst; try discriminate; subst.
  all: destruct ev; cbn -[dialSerial] in Hs; try discriminate.
  all: try (destruct (0 <=? d); [|discriminate]; inversion Hs; subst s';
            cbn in Hk'; inversion Hk'; subst r'; left; reflexivity).
  all: try (destruct tm as [w| |]; try discriminate;
            destruct (time.Before t w); [discriminate|]; inversion Hs; subst s';
            cbn in Hk'; inversion Hk'; subst r'; left; reflexivity).
  all: try (match type of Hs with
            | context [nth_error _ ?j] => destruct j as [|[|j]]
            end; cbn -[dialSerial] in Hs; try discriminate).
  all: try (match type of Hs with
            | context [nth_error [] ?j] => destruct j
            end; discriminate).
  all: repeat match type of Hs with
         | context [match ?st with Dialing => _ | _ => _ end] =>
             destruct st; try discriminate
         end.
  all: try match type of Hs with
       | context [dialSerial ctx dp ?ras ?e] =>
           destruct (dialSerial ctx dp ras e) as [[[cc ee] ll]|];
           [|discriminate]
       end.
  all: repeat match type of Hs with
         | context [match ?st with Offering _ _ => _ | _ => _ end] =>
             destruct st; try discriminate
         end.
  all: inversion Hs; subst s'; clear Hs.
  all: try (cbn in Hk'; inversion Hk'; subst r'; left; reflexivity).
  all: right; unfold_race; cbn in Hk' |- *; inversion Hk'; subst r'; cbn.
  all: repeat split; try reflexivity; apply in_or_app; right; left; reflexivity.
Qed.
(** C8, as amended.  In every state of a parallel race at most one racer
    has handed a connection to the loop; a call that has returned gives the
    caller that one connection, or none when both branches reported errors;
    a connection that was handed over is the one returned; a racer that
    went through [<-returned] has closed its connection; and once the call
    has returned, a racer that holds a connection can close it, and closing
    it is the only thing that happens to it. *)
Theorem dialParallel_connections (s : race) :
  reachable s ->
  (forall j k rj rk cj ck,
      nth_error (racers s) j = Some rj ->
      standing rj = Delivered (Some cj) None ->
      nth_error (racers s) k = Some rk ->
      standing rk = Delivered (Some ck) None ->
      j = k)
  /\ (forall c err,
         pc s = Returned c err -> racers s <> [] ->
         (exists c', c = Some c' /\ err = None
                     /\ exists r, In r (racers s)
                                  /\ standing r = Delivered (Some c') None)
         \/ (c = None
             /\ (exists e, err = Some e)
             /\ forall r, In r (racers s) ->
                          exists e', standing r = Delivered None (Some e')))
  /\ (forall r c e,
         In r (racers s) -> standing r = Delivered (Some c) e ->
         e = None /\ pc s = Returned (Some c) None)
  /\ (forall r c e,
         In r (racers s) -> standing r = Abandoned (Some c) e ->
         In c (closed s))
  /\ (forall k r c e cr er,
         pc s = Returned cr er ->
         nth_error (racers s) k = Some r ->
         standing r = Offering (Some c) e ->
         (exists s' r',
             step (SeeReturned k) s = Some s'
             /\ In c (closed s')
             /\ nth_error (racers s') k = Some r'
             /\ standing r' = Abandoned (Some c) e)
         /\ (forall ev s' r',
                step ev s = Some s' ->
                nth_error (racers s') k = Some r' ->
                standing r' = Offering (Some c) e
                \/ (ev = SeeReturned k
                    /\ standing r' = Abandoned (Some c) e
                    /\ In c (closed s')))).
Proof.
  intros Hr. apply reachable_Inv in Hr.
  split; [|split; [|split; [|split]]].
  - intros j k rj rk cj ck Hj Hsj Hk Hsk.
    destruct Hr; destruct j as [|[|j]]; destruct k as [|[|k]];
      cbn in Hj, Hk; try discriminate; try reflexivity;
      try (destruct j; discriminate); try (destruct k; discriminate);
      inversion Hj; inversion Hk; subst; cbn in *; subst; cbn in *;
      try discriminate; try tauto;
      repeat match goal with
        | H : _ /\ _ |- _ => destruct H
        | H : exists _, _ |- _ => destruct H
        end; try discriminate.
  - intros c err Hpc Hne.
    destruct Hr; cbn in Hpc, Hne; try discriminate; try contradiction;
      inversion Hpc; subst; cbn.
    + left. eexists. repeat split. eexists. split; [left; reflexivity|reflexivity].
    + left. eexists. repeat split. eexists. split; [left; reflexivity|reflexivity].
    + left. eexists. repeat split. eexists.
      split; [right; left; reflexivity|reflexivity].
    + right. split; [reflexivity|]. split; [eauto|].
      intros r [<-|[<-|[]]]; cbn; eauto.
  - intros r c e Hin Hst.
    destruct Hr; cbn in Hin;
      repeat match goal with
        | H : _ \/ _ |- _ => destruct H
        | H : False |- _ => destruct H
        end; subst; cbn in *; subst; cbn in *;
      repeat match goal with
        | H : _ /\ _ |- _ => destruct H
        | H : exists _, _ |- _ => destruct H
        end; try discriminate; try contradiction;
      try (inversion Hst; subst; auto; fail).
  - intros r c e Hin Hst.
    destruct Hr; cbn in Hin;
      repeat match goal with
        | H : _ \/ _ |- _ => destruct H
        | H : False |- _ => destruct H
        end; subst; cbn in *; subst; cbn in *;
      try discriminate; try contradiction; try assumption.
  - intros k r c e cr er Hpc Hk Hst. split.
    + destruct Hr; cbn in Hpc; try discriminate;
        destruct k as [|[|k]]; cbn in Hk; try discriminate;
        try (destruct k; discriminate);
        inversion Hk; subst; cbn in *; try discriminate; subst; cbn.
      * do 2 eexists. repeat split. apply in_or_app. right. left. reflexivity.
      * do 2 eexists. repeat split. apply in_or_app. right. left. reflexivity.
    + intros ev s' r' Hs Hk'. eapply holder_only_closes; eassumption.
Qed.
End RaceClaims.

(** *** The race on samples *)

Lemma stateAfter_reachable (evs : list event) (s : race) :
  run background plainParam [SRT (Some peer6)] [SRT (Some peer4)] evs
      (initial someday) = Some s ->
  reachable background plainParam [SRT (Some peer6)] [SRT (Some peer4)] s.
Proof. intros H. exists someday, evs. exact H. Defined.

Lemma failingRace_runs :
  run background plainParam [SRT (Some peer6)] [SRT (Some peer4)] failingRace
      (initial someday) = Some (stateAfter failingRace).
Proof. vm_compute. reflexivity. Defined.

Lemma fallbackWins_runs :
  run background plainParam [SRT (Some peer6)] [SRT (Some peer4)] fallbackWins
      (initial someday) = Some (stateAfter fallbackWins).
Proof. vm_compute. reflexivity. Defined.

Lemma timerFired_runs :
  run background plainParam [SRT (Some peer6)] [SRT (Some peer4)] timerFired
      (initial someday) = Some (stateAfter timerFired).
Proof. vm_compute. reflexivity. Defined.

Example failingRace_returns :
  pc (stateAfter failingRace) = Returned None (Some refused6).
Proof. vm_compute. reflexivity. Qed.

(** C8 as worded: "exactly one connection handle is ever returned to the
    caller".  It fails for the race in which both branches are refused:
    the call returns the primary's error and no connection. *)
Lemma failed_race_returns_no_connection :
  ~ (forall (ctx : Context) (dp : dialParam) (primaries fallbacks : addrList)
            (s : race) (c : option Conn) (err : option error),
        reachable ctx dp primaries fallbacks s ->
        racers s <> [] ->
        pc s = Returned c err ->
        exists c', c = Some c').
Proof.
  intros H.
  assert (Hne : racers (stateAfter failingRace) <> [])
    by (vm_compute; discriminate).
  destruct (H background plainParam [SRT (Some peer6)] [SRT (Some peer4)]
              (stateAfter failingRace) None (Some refused6)
              (stateAfter_reachable _ _ failingRace_runs) Hne
              failingRace_returns)
    as [c' Hc].
  discriminate.
Qed.

Lemma dialParallel_results_witness :
  reachable background plainParam [SRT (Some peer6)] [SRT (Some peer4)]
            (stateAfter failingRace)
  /\ pc (stateAfter failingRace) = Returned None (Some refused6).
Proof.
  split; [exact (stateAfter_reachable _ _ failingRace_runs)|].
  destruct (dialParallel_results background plainParam
              [SRT (Some peer6)] [SRT (Some peer4)] (stateAfter failingRace)
              (stateAfter_reachable _ _ failingRace_runs))
    as (_ & _ & H).
  apply (H (mkRacer true someday (Delivered None (Some refused6)))
           (mkRacer false someday
              (Delivered None
                 (Some (OpError "dial" "srt" None
                                (Some (SRT (Some peer4))) (Errno 111)))))
           None refused6 None
           (OpError "dial" "srt" None
                    (Some (SRT (Some peer4))) (Errno 111)));
    try reflexivity.
  - vm_compute. left. reflexivity.
  - vm_compute. right. left. reflexivity.
Defined.

Lemma dialParallel_head_start_witness :
  reachable background plainParam [SRT (Some peer6)] [SRT (Some peer4)]
            (stateAfter timerFired)
  /\ exists p,
      racers (stateAfter timerFired) = [p]
      /\ isPrimary p = true
      /\ (time.sinceZero (startedAt p) + fallbackDelay (dialer plainParam)
          <= time.sinceZero (clock (stateAfter timerFired))
          \/ exists c e, standing p = Delivered c (Some e)).
Proof.
  split; [exact (stateAfter_reachable _ _ timerFired_runs)|].
  destruct (dialParallel_head_start background plainParam
              [SRT (Some peer6)] [SRT (Some peer4)] (stateAfter timerFired)
              (stateAfter_reachable _ _ timerFired_runs))
    as (H & _).
  assert (Hs : exists s',
             step background plainParam [SRT (Some peer6)] [SRT (Some peer4)]
                  RecvTimer (stateAfter timerFired) = Some s')
    by (vm_compute; eexists; reflexivity).
  destruct Hs as [s' Hs].
  destruct (H s' Hs) as (p & Hp & Hprim & _ & Hd).
  exists p. auto.
Defined.

Lemma dialParallel_connections_witness :
  reachable background plainParam [SRT (Some peer6)] [SRT (Some peer4)]
            (stateAfter fallbackWins)
  /\ pc (stateAfter fallbackWins) = Returned (Some (ConnSRT (Some 5))) None
  /\ In (ConnSRT (Some 6)) (closed (stateAfter fallbackWins)).
Proof.
  split; [exact (stateAfter_reachable _ _ fallbackWins_runs)|].
  destruct (dialParallel_connections background plainParam
              [SRT (Some peer6)] [SRT (Some peer4)] (stateAfter fallbackWins)
              (stateAfter_reachable _ _ fallbackWins_runs))
    as (_ & _ & Hd & Hc & _).
  split.
  - apply (Hd (mkRacer false (time.Add someday (300 * time.Millisecond))
                       (Delivered (Some (ConnSRT (Some 5))) None))
              (ConnSRT (Some 5)) None).
    + vm_compute. right. left. reflexivity.
    + reflexivity.
  - apply (Hc (mkRacer true someday (Abandoned (Some (ConnSRT (Some 6))) None))
              (ConnSRT (Some 6)) None).
    + vm_compute. left. reflexivity.
    + reflexivity.
Defined.
